(** * Threshold-secret reconstruction (app.js): a shallow embedding

    The development follows the layout of [app.js]:
    - [Js]         : the fragment of JavaScript the program relies on
                     (exceptions, BigInt literals and division, arrays);
    - [Decoder]    : [decodeFromBase];
    - [Combos]     : [generateCombinations] and its recursive [backtrack];
    - [Lagrange]   : [performLagrangeInterpolation];
    - [Recovery]   : [findSecretWithMinimumRoots];
    - [TestCase]   : [processTestCase], from the parsed input on;
    - [Reference]  : functions that only the statements use.

    BigInt values are [Z]; array lengths, indices and Map counts are [nat];
    a JS string is a [string] of 8-bit code units. *)

From Stdlib Require Import ZArith Lia List Ascii String.
From Stdlib Require Import Sorting.Permutation Sorting.SetoidPermutation.
From stdpp Require Import base tactics list sorting gmap pretty.

Local Open Scope Z_scope.

(* ===================================================================== *)
(** ** The JavaScript fragment *)
(* ===================================================================== *)

Module Js.

(** The exceptions the program can raise. The first and the last are the
    two [throw new Error(...)] statements of the program; the other three
    are raised by the language itself. *)
Inductive exn : Set :=
| InvalidDigit        (* Error("Invalid digit ..."), Error("Digit ... is invalid ...") *)
| SyntaxError         (* BigInt(s) when s is not a StringIntegerLiteral *)
| RangeError          (* BigInt division by zero *)
| TypeError           (* method call on undefined *)
| NoValidCandidates.  (* Error("No valid secrets found from any combination") *)

Inductive result (A : Type) : Type :=
| OK (a : A)
| Throw (e : exn).
Arguments OK {A} a.
Arguments Throw {A} e.

(** Sequencing: a statement that throws ends the enclosing computation. *)
#[global] Instance result_bind : MBind result := fun A B k r =>
  match r with
  | OK a => k a
  | Throw e => Throw e
  end.

Definition is_OK {A} (r : result A) : bool :=
  match r with OK _ => true | Throw _ => false end.

(** [try { body } catch (error) { }] around a state update: the state before
    the body is kept when the body throws. *)
Definition try_catch {S} (s : S) (body : result S) : S :=
  match body with
  | OK s' => s'
  | Throw _ => s
  end.

(** Monadic left fold: a [for] loop whose body may throw. *)
Fixpoint foldM {S X} (body : S -> X -> result S) (xs : list X) (s : S) : result S :=
  match xs with
  | nil => OK s
  | x :: xs' => s' ← body s x; foldM body xs' s'
  end.

(** [a / b] on BigInt: truncation toward zero, [RangeError] on a zero divisor. *)
Definition bigint_div (a b : Z) : result Z :=
  if b =? 0 then Throw RangeError else OK (Z.quot a b).

(** Code unit of a character. *)
Definition code (c : ascii) : Z := Z.of_N (N_of_ascii c).

(** [String.prototype.toLowerCase] on code units below 256: the letters
    A-Z and the Latin-1 capitals (U+00C0..U+00DE except the multiplication
    sign U+00D7) move up by 32, all other code units stay. Code units
    from 256 on are not in the strings of this development; among them
    [toLowerCase] sends U+212A (KELVIN SIGN) to the letter k. *)
Definition toLowerCase_char (c : ascii) : ascii :=
  let n := code c in
  if ((65 <=? n) && (n <=? 90)) || ((192 <=? n) && (n <=? 222) && negb (n =? 215))
  then ascii_of_N (N_of_ascii c + 32)
  else c.

(** StrWhiteSpaceChar below 256: TAB, LF, VT, FF, CR, SP, NBSP. *)
Definition is_StrWhiteSpaceChar (c : ascii) : bool :=
  let n := code c in
  ((9 <=? n) && (n <=? 13)) || (n =? 32) || (n =? 160).

Fixpoint trim_start (s : list ascii) : list ascii :=
  match s with
  | c :: s' => if is_StrWhiteSpaceChar c then trim_start s' else s
  | nil => nil
  end.

Definition trim (s : list ascii) : list ascii :=
  rev (trim_start (rev (trim_start s))).

(** Value of a digit character in the alphabet 0-9, a-z, A-Z. *)
Definition digit_of_char (c : ascii) : option Z :=
  let n := code c in
  if (48 <=? n) && (n <=? 57) then Some (n - 48)
  else if (97 <=? n) && (n <=? 122) then Some (n - 97 + 10)
  else if (65 <=? n) && (n <=? 90) then Some (n - 65 + 10)
  else None.

(** Mathematical value of a digit sequence in a radix; [None] when a
    character is not a digit of that radix. *)
Fixpoint digits_MV (radix : Z) (ds : list ascii) (acc : Z) : option Z :=
  match ds with
  | nil => Some acc
  | d :: ds' =>
      match digit_of_char d with
      | Some v => if v <? radix then digits_MV radix ds' (acc * radix + v) else None
      | None => None
      end
  end.

(** A non-empty digit sequence (numeric separators are not allowed). *)
Definition nonempty_digits (radix : Z) (ds : list ascii) : option Z :=
  match ds with
  | nil => None
  | _ => digits_MV radix ds 0
  end.

(** StringToBigInt: optional white space around either nothing (0n), a
    [0x]/[0o]/[0b] literal, or an optionally signed decimal literal. *)
Definition StringToBigInt (s : list ascii) : option Z :=
  match trim s with
  | nil => Some 0
  | "0"%char :: "x"%char :: ds | "0"%char :: "X"%char :: ds => nonempty_digits 16 ds
  | "0"%char :: "o"%char :: ds | "0"%char :: "O"%char :: ds => nonempty_digits 8 ds
  | "0"%char :: "b"%char :: ds | "0"%char :: "B"%char :: ds => nonempty_digits 2 ds
  | "+"%char :: ds => nonempty_digits 10 ds
  | "-"%char :: ds => option_map Z.opp (nonempty_digits 10 ds)
  | ds => nonempty_digits 10 ds
  end.

(** [BigInt(s)] for a string argument. *)
Definition BigInt (s : string) : result Z :=
  match StringToBigInt (list_ascii_of_string s) with
  | Some v => OK v
  | None => Throw SyntaxError
  end.

End Js.

Export Js.

(* ===================================================================== *)
(** ** Base decoding *)
(* ===================================================================== *)

Module Decoder.

(** The two range tests on a (lower-cased) digit: [parseInt(digit)] for a
    decimal digit, the offset from ['a'] plus ten for a letter, and the
    first [throw] otherwise. *)
Definition digitValueOf (digit : ascii) : Js.result Z :=
  if (code "0" <=? code digit) && (code digit <=? code "9")
  then OK (code digit - code "0")
  else if (code "a" <=? code digit) && (code digit <=? code "z")
  then OK (code digit - code "a" + 10)
  else Throw InvalidDigit.

(** The body of the [for] loop of [decodeFromBase]: the digit value, the
    comparison with the base (second [throw]), and the update of [result]. *)
Definition decode_step (baseNum : Z) (result : Z) (digit : ascii) : Js.result Z :=
  digitValue ← digitValueOf digit;
  if digitValue >=? baseNum then Throw InvalidDigit
  else OK (result * baseNum + digitValue).

(** [decodeFromBase(value, base)]. The base is an integer, on which
    [parseInt] is the identity; base 16 is handed to [BigInt] with the
    prefix ["0x"], every other base goes through the loop over the
    lower-cased characters. *)
Definition decodeFromBase (value : string) (base : Z) : Js.result Z :=
  let baseNum := base in
  if baseNum =? 16 then BigInt ("0x" ++ value)
  else
    let digits := map toLowerCase_char (list_ascii_of_string value) in
    foldM (decode_step baseNum) digits 0.

(** A character that is a digit of the base, case-insensitively. *)
Definition valid_digit (base : Z) (c : ascii) : bool :=
  match digit_of_char c with
  | Some v => v <? base
  | None => false
  end.

(** The character of a digit value below 36: [0-9], then [a-z]. *)
Definition digit_char (d : Z) : ascii :=
  if d <? 10 then ascii_of_N (Z.to_N (48 + d)) else ascii_of_N (Z.to_N (97 + d - 10)).

(** The digits of [v] in base [b], most significant first, put in front of
    [acc]; [fuel] bounds the number of digits. *)
Fixpoint encode_digits (fuel : nat) (v b : Z) (acc : list ascii) : list ascii :=
  match fuel with
  | O => acc
  | S fuel' =>
      if v <? b then digit_char v :: acc
      else encode_digits fuel' (v / b) b (digit_char (v mod b) :: acc)
  end.

(** Modelled from the spec: the fixture helper [encode], the inverse of
    decoding, is not part of app.js. It writes a non-negative integer in
    the given base with the digits 0-9 then a-z, most significant digit
    first, without leading zeros, and ["0"] for zero. A number [v] has at
    most [log2 v + 1] digits in any base from 2 on. *)
Definition encode (v b : Z) : string :=
  string_of_list_ascii (encode_digits (S (Z.to_nat (Z.log2 v))) v b nil).

End Decoder.

(* ===================================================================== *)
(** ** Combinations *)
(* ===================================================================== *)

Module Combos.

Section Backtrack.
Context {A : Type}.
Variable combinationSize : Z.

(** [backtrack(startIndex, currentCombination)]. The elements from
    [startIndex] on are the list [rest]; [currentCombination] is passed
    by value, since the source saves a copy of it and undoes each [push]
    with a [pop]. The result is the list of combinations the call
    appends to [allCombinations]. The inner loop is the [for] loop over
    [i = startIndex .. elements.length - 1]. *)
Fixpoint backtrack (rest : list A) (currentCombination : list A) {struct rest}
  : list (list A) :=
  if Z.of_nat (length currentCombination) =? combinationSize
  then [currentCombination]
  else
    (fix loop (r : list A) : list (list A) :=
       match r with
       | [] => []
       | e :: r' => backtrack r' (currentCombination ++ [e]) ++ loop r'
       end) rest.
End Backtrack.

(** [generateCombinations(elements, combinationSize)]: the combinations
    collected by [backtrack(0, [])]. The function has no [throw]. *)
Definition generateCombinations {A} (elements : list A) (combinationSize : Z)
  : Js.result (list (list A)) :=
  OK (backtrack combinationSize elements []).

(** The combinations of [m] elements of a list, as a structural recursion:
    those that take the head, then those that do not. *)
Fixpoint sublists {A} (m : nat) (l : list A) : list (list A) :=
  match m, l with
  | O, _ => [[]]
  | S _, [] => []
  | S m', a :: l' => map (cons a) (sublists m' l') ++ sublists m l'
  end.

(** Binomial coefficients by Pascal's rule. *)
Fixpoint choose (n k : nat) : nat :=
  match n, k with
  | _, O => 1%nat
  | O, S _ => 0%nat
  | S n', S k' => (choose n' k' + choose n' k)%nat
  end.

(** Strict lexicographic order on index sequences. *)
Fixpoint lex_lt (a b : list nat) : Prop :=
  match a, b with
  | [], [] => False
  | [], _ :: _ => True
  | _ :: _, [] => False
  | x :: a', y :: b' => (x < y)%nat \/ (x = y /\ lex_lt a' b')
  end.

(** An index sequence that picks [k] distinct positions below [n] in
    increasing order. *)
Definition is_combination (n k : nat) (c : list nat) : Prop :=
  length c = k /\ StronglySorted lt c /\ Forall (fun i => (i < n)%nat) c.

End Combos.

(* ===================================================================== *)
(** ** Polynomial interpolation *)
(* ===================================================================== *)

Module Lagrange.

(** A decoded root [{ x, y }]; both fields are converted with [BigInt(...)]
    before use, so they are integers here. *)
Record Point : Set := mkPoint { x : Z; y : Z }.

#[global] Instance Point_inhabited : Inhabited Point := populate (mkPoint 0 0).

(** [new Array(n).fill(BigInt(0))] *)
Definition zeros (n : nat) : list Z := replicate n 0.

(** The loop "multiply current polynomial by (x - xj)": for [k] from [0] to
    [numberOfPoints - 2], two assignments into [tempPolynomial]. *)
Definition multiplyStep (basisPolynomial : list Z) (xj : Z)
    (tempPolynomial : list Z) (k : nat) : list Z :=
  let tempPolynomial := <[S k := basisPolynomial !!! k]> tempPolynomial in
  <[k := (basisPolynomial !!! k) * (- xj)]> tempPolynomial.

Definition multiplyByLinear (numberOfPoints : nat) (basisPolynomial : list Z) (xj : Z)
  : list Z :=
  fold_left (multiplyStep basisPolynomial xj)
            (seq 0 (numberOfPoints - 1)) (zeros numberOfPoints).

(** One iteration of the loop over [j]: skipped when [i === j], otherwise it
    updates [denominator] and replaces [basisPolynomial]. *)
Definition basisStep (dataPoints : list Point) (numberOfPoints i : nat)
    (st : list Z * Z) (j : nat) : list Z * Z :=
  let '(basisPolynomial, denominator) := st in
  if (i =? j)%nat then st
  else
    let xi := x (dataPoints !!! i) in
    let xj := x (dataPoints !!! j) in
    (multiplyByLinear numberOfPoints basisPolynomial xj, denominator * (xi - xj)).

Definition basisOf (dataPoints : list Point) (numberOfPoints i : nat) : list Z * Z :=
  fold_left (basisStep dataPoints numberOfPoints i)
            (seq 0 numberOfPoints)
            (<[0%nat := 1]> (zeros numberOfPoints), 1).

(** The loop that adds one point's contribution: the quotient is taken
    term by term, and a zero denominator raises [RangeError]. *)
Definition addContribution (yi : Z) (basisPolynomial : list Z) (denominator : Z)
    (polynomialCoefficients : list Z) (k : nat) : Js.result (list Z) :=
  q ← bigint_div (yi * (basisPolynomial !!! k)) denominator;
  OK (<[k := (polynomialCoefficients !!! k) + q]> polynomialCoefficients).

(** The body of the outer loop over [i]. *)
Definition pointStep (dataPoints : list Point) (numberOfPoints : nat)
    (polynomialCoefficients : list Z) (i : nat) : Js.result (list Z) :=
  let yi := y (dataPoints !!! i) in
  let '(basisPolynomial, denominator) := basisOf dataPoints numberOfPoints i in
  foldM (addContribution yi basisPolynomial denominator)
        (seq 0 numberOfPoints) polynomialCoefficients.

Definition performLagrangeInterpolation (dataPoints : list Point) : Js.result (list Z) :=
  let numberOfPoints := length dataPoints in
  foldM (pointStep dataPoints numberOfPoints)
        (seq 0 numberOfPoints) (zeros numberOfPoints).

(** Value of the polynomial with the given coefficients (index [i] is the
    coefficient of [x^i]). *)
Fixpoint eval_poly (coeffs : list Z) (t : Z) : Z :=
  match coeffs with
  | [] => 0
  | c :: cs => c + t * eval_poly cs t
  end.

Definition on_poly (coeffs : list Z) (p : Point) : Prop :=
  eval_poly coeffs (x p) = y p.

(** *** What the loops compute

    The definitions below describe the result of
    [performLagrangeInterpolation] without indices; they are related to
    the loops above by [performLagrangeInterpolation_closed]. *)

(** Every point of a list paired with the other points, in order. *)
Fixpoint selections (l : list Point) : list (Point * list Point) :=
  match l with
  | [] => []
  | a :: l' => (a, l') :: map (fun s => (s.1, a :: s.2)) (selections l')
  end.

(** Sum of [f p others] over the selections of a list. *)
Definition selection_sum (f : Point -> list Point -> Z) (l : list Point) : Z :=
  fold_right Z.add 0 (map (fun s => f s.1 s.2) (selections l)).

(** The loop over [j], as a fold over the other points. *)
Definition basisFold (numberOfPoints : nat) (others : list Point) : list Z :=
  fold_left (fun b q => multiplyByLinear numberOfPoints b (x q))
            others (<[0%nat := 1]> (zeros numberOfPoints)).

(** [denominator]: the product of [xi - xj] over the other points. *)
Definition denominatorOf (p : Point) (others : list Point) : Z :=
  fold_left (fun d q => d * (x p - x q)) others 1.

(** The product of [-xj] over the other points. *)
Definition numeratorOf (others : list Point) : Z :=
  fold_left (fun a q => a * (- x q)) others 1.

(** The array [basisPolynomial] after the loop over [j]: its entry 0 is
    [numeratorOf]; entry 1 is [1] for two points; every other entry is [0]. *)
Definition basisClosed (numberOfPoints : nat) (others : list Point) : list Z :=
  numeratorOf others ::
  match numberOfPoints with
  | 2%nat => [1]
  | _ => zeros (numberOfPoints - 1)
  end.

(** The summand of coefficient [k] contributed by point [p]. *)
Definition termOf (numberOfPoints k : nat) (p : Point) (others : list Point) : Z :=
  Z.quot (y p * (basisClosed numberOfPoints others !!! k)) (denominatorOf p others).

Definition coefficientsClosed (dataPoints : list Point) : list Z :=
  map (fun k => selection_sum (termOf (length dataPoints) k) dataPoints)
      (seq 0 (length dataPoints)).

End Lagrange.

(* ===================================================================== *)
(** ** Secret recovery *)
(* ===================================================================== *)

Module Recovery.

Import Combos Lagrange.

(** [secretFrequencyMap]: a [Map] from the decimal string of a BigInt to a
    count. [toString] is injective on BigInts and [BigInt(c.toString())]
    is [c], so the keys are the integers themselves. The entries are kept
    in insertion order, which is the iteration order of a [Map]. *)
Definition SecretMap : Type := list (Z * nat).

(** [m.get(key)]: [None] is [undefined]. *)
Fixpoint map_get (m : SecretMap) (key : Z) : option nat :=
  match m with
  | [] => None
  | (k', v) :: m' => if k' =? key then Some v else map_get m' key
  end.

(** [m.set(key, v)]: an existing key keeps its position, a new key goes
    last. *)
Fixpoint map_set (m : SecretMap) (key : Z) (v : nat) : SecretMap :=
  match m with
  | [] => [(key, v)]
  | (k', v') :: m' => if k' =? key then (k', v) :: m' else (k', v') :: map_set m' key v
  end.

(** The callback of [allCombinations.forEach]: the [try] block, with its
    [catch] that only logs. [polynomialCoefficients[0]] is [undefined] on
    an empty array, and [undefined.toString()] raises [TypeError]. *)
Definition tallyBody (secretFrequencyMap : SecretMap) (rootCombination : list Point)
  : Js.result SecretMap :=
  polynomialCoefficients ← performLagrangeInterpolation rootCombination;
  constantTerm ←
    match polynomialCoefficients !! 0%nat with
    | Some c => OK c
    | None => Throw TypeError
    end;
  OK (map_set secretFrequencyMap constantTerm
        (default 0%nat (map_get secretFrequencyMap constantTerm) + 1)%nat).

Definition tallyStep (secretFrequencyMap : SecretMap) (rootCombination : list Point)
  : SecretMap :=
  try_catch secretFrequencyMap (tallyBody secretFrequencyMap rootCombination).

Definition tally (allCombinations : list (list Point)) : SecretMap :=
  fold_left tallyStep allCombinations [].

(** The reducer [(mostFrequent, current) => current[1] > mostFrequent[1] ?
    current : mostFrequent]. *)
Definition moreFrequent (mostFrequent current : Z * nat) : Z * nat :=
  if (mostFrequent.2 <? current.2)%nat then current else mostFrequent.

(** [entries.reduce(f)] without an initial value: the first entry is the
    initial accumulator; [TypeError] on an empty array. *)
Definition reduce {E} (f : E -> E -> E) (entries : list E) : Js.result E :=
  match entries with
  | [] => Throw TypeError
  | e :: es => OK (fold_left f es e)
  end.

Record RecoveryResult : Set := mkResult {
  secret : Z;
  frequency : option nat;   (* the value of [get]: [None] is [undefined] *)
  totalCombinations : nat
}.

Definition findSecretWithMinimumRoots (allRoots : list Point) (k : Z)
  : Js.result RecoveryResult :=
  allCombinations ← generateCombinations allRoots k;
  let secretFrequencyMap := tally allCombinations in
  if (length secretFrequencyMap =? 0)%nat then Throw NoValidCandidates
  else
    best ← reduce moreFrequent secretFrequencyMap;
    let mostCommonSecret := best.1 in
    let secretFrequency := map_get secretFrequencyMap mostCommonSecret in
    OK {| secret := mostCommonSecret;
          frequency := secretFrequency;
          totalCombinations := length allCombinations |}.

(** *** What the tally contains

    The definitions below describe [tally] in terms of the sequence of
    candidate secrets; they are related to it by [tally_entries]. *)

(** The candidate secret of a combination: the constant term, when the
    [try] block completes. *)
Definition candidate (rootCombination : list Point) : option Z :=
  match performLagrangeInterpolation rootCombination with
  | OK (c :: _) => Some c
  | _ => None
  end.

(** The candidates of the combinations, in the order of the combinations;
    a combination whose [try] block throws contributes none. *)
Fixpoint candidates (allCombinations : list (list Point)) : list Z :=
  match allCombinations with
  | [] => []
  | comb :: rest =>
      match candidate comb with
      | Some c => c :: candidates rest
      | None => candidates rest
      end
  end.

(** [m.set(c, (m.get(c) || 0) + 1)] *)
Definition increment (m : SecretMap) (c : Z) : SecretMap :=
  map_set m c (default 0%nat (map_get m c) + 1)%nat.

(** Number of occurrences of a candidate in a sequence. *)
Fixpoint occurrences (c : Z) (cs : list Z) : nat :=
  match cs with
  | [] => 0%nat
  | c' :: cs' => ((if (c' =? c)%Z then 1 else 0) + occurrences c cs')%nat
  end.

(** The distinct candidates of a sequence, in the order in which they
    first occur. *)
Definition see (seen : list Z) (c : Z) : list Z :=
  if in_dec Z.eq_dec c seen then seen else seen ++ [c].

Definition first_seen (cs : list Z) : list Z := fold_left see cs [].

Definition entries (cs : list Z) : SecretMap :=
  map (fun c => (c, occurrences c cs)) (first_seen cs).

End Recovery.

(* ===================================================================== *)
(** ** Processing a test case *)
(* ===================================================================== *)

Module TestCase.

Import Decoder Combos Lagrange Recovery.

(** One root of the input object: [{ base, value }]. *)
Record Share : Set := mkShare { base : Z; value : string }.

(** The object parsed from an input file, after the destructuring
    [{ keys, ...rootData }] and [{ n, k } = keys]: the two numbers, and the
    remaining properties by name. Reading the file and [JSON.parse] come
    before and are not modelled. *)
Record InputData : Type := mkInput {
  n : Z;
  k : Z;
  rootData : gmap string Share
}.

(** One iteration of the loop [for (let i = 1; i <= n; i++)]: the root is
    looked up under the decimal string of [i]; a missing root is skipped,
    a present one is decoded and pushed with [x = i]. An exception of
    [decodeFromBase] leaves the loop. *)
Definition decodeStep (rootData : gmap string Share)
    (decodedRoots : list Point) (i : nat) : Js.result (list Point) :=
  match rootData !! pretty i with
  | Some root =>
      y ← decodeFromBase (value root) (base root);
      OK (decodedRoots ++ [mkPoint (Z.of_nat i) y])
  | None => OK decodedRoots
  end.

Definition decodeRoots (n : Z) (rootData : gmap string Share)
  : Js.result (list Point) :=
  foldM (decodeStep rootData) (seq 1 (Z.to_nat n)) [].

(** [processTestCase], from the parsed input on. The [catch] block logs
    the error and throws it again, so an exception of the body is the
    exception of the function. *)
Definition processTestCase (inputData : InputData) : Js.result Z :=
  decodedRoots ← decodeRoots (n inputData) (rootData inputData);
  result ← findSecretWithMinimumRoots decodedRoots (k inputData);
  OK (secret result).

(** The roots present under the names ["1"], ..., ["n"], with their
    positions, in increasing order. *)
Definition presentRoots (n : Z) (rootData : gmap string Share) : list (nat * Share) :=
  omap (fun i => option_map (pair i) (rootData !! pretty i)) (seq 1 (Z.to_nat n)).

(** What holds of a decoded root: its [x] lies between two bounds, its
    [y] is not negative and is the decoded value of the root named by
    [x]. *)
Definition decoded_root (rootData : gmap string Share) (lo hi : Z) (p : Point) : Prop :=
  lo <= x p <= hi /\ 0 <= y p /\
  exists root,
    rootData !! pretty (Z.to_nat (x p)) = Some root /\
    decodeFromBase (value root) (base root) = OK (y p).

End TestCase.

(* ===================================================================== *)
(** ** Reference functions used in the statements *)
(* ===================================================================== *)

Module Reference.

Import Lagrange.



(** A string with each character put in lower case. *)
Definition toLowerCase (s : string) : string :=
  string_of_list_ascii (map toLowerCase_char (list_ascii_of_string s)).

(** Sum of the counts of a map. *)
Definition total_count (m : list (Z * nat)) : nat :=
  fold_right Nat.add 0%nat (map snd m).

(** The constant term, as the loops compute it from three points on. *)
Definition constantTerm (dataPoints : list Point) : Z :=
  selection_sum
    (fun p others => Z.quot (y p * numeratorOf others) (denominatorOf p others))
    dataPoints.

(** Whether the interpolation of a combination returns a vector whose
    constant term is [c]. *)
Definition yields (c : Z) (rootCombination : list Point) : bool :=
  match performLagrangeInterpolation rootCombination with
  | OK (c0 :: _) => c0 =? c
  | _ => false
  end.

(** Number of combinations whose interpolation yields [c]. *)
Definition subsets_yielding (c : Z) (allCombinations : list (list Point)) : nat :=
  length (List.filter (yields c) allCombinations).

End Reference.

Import Decoder Combos Lagrange Recovery.

(* ===================================================================== *)
(** ** Facts about the JavaScript fragment *)
(* ===================================================================== *)

Lemma foldM_app {S X} (body : S -> X -> Js.result S) (xs ys : list X) (s : S) :
  foldM body (xs ++ ys) s = (s' ← foldM body xs s; foldM body ys s').
Proof.
  revert s. induction xs as [|a xs IH]; intros s; simpl; [reflexivity|].
  destruct (body s a) as [s'|e]; simpl; [apply IH | reflexivity].
Qed.

Lemma foldM_ext_in {S X} (f g : S -> X -> Js.result S) (xs : list X) (s : S) :
  (forall s' a, In a xs -> f s' a = g s' a) -> foldM f xs s = foldM g xs s.
Proof.
  revert s. induction xs as [|a xs IH]; intros s Hfg; simpl; [reflexivity|].
  rewrite (Hfg s a) by (left; reflexivity).
  destruct (g s a) as [s'|e]; simpl; [|reflexivity].
  apply IH. intros s'' b Hb. apply Hfg. right; exact Hb.
Qed.

(** The digit alphabet of BigInt literals is the alphabet of the manual
    loop after lower-casing. *)
Lemma digit_of_char_lower (c : ascii) :
  digit_of_char c =
  match digitValueOf (toLowerCase_char c) with OK v => Some v | Throw _ => None end.
Proof. destruct c as [[] [] [] [] [] [] [] []]; reflexivity. Qed.

Lemma decode_step_eq (baseNum result : Z) (digit : ascii) :
  decode_step baseNum result digit =
  match digitValueOf digit with
  | OK v => if baseNum <=? v then Throw InvalidDigit else OK (result * baseNum + v)
  | Throw e => Throw e
  end.
Proof.
  unfold decode_step. destruct (digitValueOf digit) as [v|e]; [|reflexivity].
  cbn [mbind result_bind]. rewrite Z.geb_leb. reflexivity.
Qed.

Lemma digits_MV_decode (radix : Z) (ds : list ascii) (acc : Z) :
  digits_MV radix ds acc =
  match foldM (decode_step radix) (map toLowerCase_char ds) acc with
  | OK v => Some v
  | Throw _ => None
  end.
Proof.
  revert acc. induction ds as [|d ds IH]; intros acc; [reflexivity|].
  cbn [map digits_MV foldM].
  rewrite (decode_step_eq radix acc (toLowerCase_char d)), digit_of_char_lower.
  destruct (digitValueOf (toLowerCase_char d)) as [v|e]; [|reflexivity].
  rewrite Z.ltb_antisym.
  destruct (radix <=? v); [reflexivity | apply IH].
Qed.

(* ===================================================================== *)
(** ** The decoder *)
(* ===================================================================== *)

Section DecoderFacts.

Ltac small_digit d :=
  let n := fresh "n" in
  let Hn := fresh "Hn" in
  assert (Hn : exists n : nat, (n < 36)%nat /\ d = Z.of_nat n)
    by (exists (Z.to_nat d); lia);
  destruct Hn as (n & Hn & ->);
  do 36 (destruct n as [|n]; [reflexivity|]); lia.

Lemma digit_char_value (d : Z) :
  0 <= d < 36 -> digitValueOf (toLowerCase_char (digit_char d)) = OK d.
Proof. intros Hd. small_digit d. Qed.

Lemma digit_char_not_space (d : Z) :
  0 <= d < 36 -> is_StrWhiteSpaceChar (digit_char d) = false.
Proof. intros Hd. small_digit d. Qed.

Lemma decode_step_digit_char (b r d : Z) :
  0 <= d < b -> b <= 36 ->
  decode_step b r (toLowerCase_char (digit_char d)) = OK (r * b + d).
Proof.
  intros Hd Hb. rewrite decode_step_eq, digit_char_value by lia.
  destruct (Z.leb_spec b d); [lia | reflexivity].
Qed.

(** Decoding the digits of [v] followed by [rest] is decoding [rest]
    from the accumulator [v]. *)
Lemma encode_digits_decode (b : Z) (fuel : nat) :
  2 <= b <= 36 ->
  forall (v : Z) (rest : list ascii),
    0 <= v < 2 ^ Z.of_nat fuel ->
    foldM (decode_step b) (map toLowerCase_char (encode_digits fuel v b rest)) 0 =
    foldM (decode_step b) (map toLowerCase_char rest) v.
Proof.
  intros Hb. induction fuel as [|fuel IH]; intros v rest Hv.
  - change (2 ^ Z.of_nat 0) with 1 in Hv.
    assert (v = 0) as -> by lia. reflexivity.
  - cbn [encode_digits]. destruct (Z.ltb_spec v b) as [Hlt|Hge].
    + cbn [map foldM]. rewrite decode_step_digit_char by lia.
      cbn [mbind result_bind]. reflexivity.
    + assert (Hpow : 2 ^ Z.of_nat (S fuel) = 2 * 2 ^ Z.of_nat fuel)
        by (rewrite Nat2Z.inj_succ, Z.pow_succ_r by lia; reflexivity).
      rewrite IH.
      * cbn [map foldM].
        pose proof (Z.mod_pos_bound v b ltac:(lia)) as Hm.
        rewrite decode_step_digit_char by lia.
        cbn [mbind result_bind]. f_equal.
        pose proof (Z.div_mod v b ltac:(lia)). lia.
      * split; [apply Z.div_pos; lia|].
        apply Z.div_lt_upper_bound; [lia|]. nia.
Qed.

Lemma encode_digits_app (fuel : nat) (v b : Z) (acc : list ascii) :
  encode_digits fuel v b acc = encode_digits fuel v b [] ++ acc.
Proof.
  revert v acc. induction fuel as [|fuel IH]; intros v acc; [reflexivity|].
  cbn [encode_digits]. destruct (v <? b); [reflexivity|].
  rewrite IH, (IH _ [_]), <- app_assoc. reflexivity.
Qed.

Lemma encode_digits_nonempty (fuel : nat) (v b : Z) :
  encode_digits (S fuel) v b [] <> [].
Proof.
  cbn [encode_digits]. destruct (v <? b); [discriminate|].
  rewrite encode_digits_app. intros H%app_eq_nil. destruct H; discriminate.
Qed.

Lemma encode_digits_not_space (b : Z) (fuel : nat) :
  2 <= b <= 36 ->
  forall (v : Z) (acc : list ascii),
    0 <= v ->
    Forall (fun c => is_StrWhiteSpaceChar c = false) acc ->
    Forall (fun c => is_StrWhiteSpaceChar c = false) (encode_digits fuel v b acc).
Proof.
  intros Hb. induction fuel as [|fuel IH]; intros v acc Hv Hacc; [exact Hacc|].
  cbn [encode_digits]. destruct (Z.ltb_spec v b) as [Hlt|Hge].
  - constructor; [apply digit_char_not_space; lia | exact Hacc].
  - pose proof (Z.mod_pos_bound v b ltac:(lia)) as Hm.
    apply IH; [apply Z.div_pos; lia|].
    constructor; [apply digit_char_not_space; lia | exact Hacc].
Qed.

Lemma trim_start_not_space (l : list ascii) :
  Forall (fun c => is_StrWhiteSpaceChar c = false) l -> trim_start l = l.
Proof. intros [|c l' Hc _]; [reflexivity|]. cbn. rewrite Hc. reflexivity. Qed.

Lemma trim_not_space (l : list ascii) :
  Forall (fun c => is_StrWhiteSpaceChar c = false) l -> trim l = l.
Proof.
  intros Hl. unfold trim. rewrite (trim_start_not_space l Hl).
  rewrite trim_start_not_space; [apply rev_involutive|].
  apply List.Forall_rev. exact Hl.
Qed.

Lemma StringToBigInt_hex (ds : list ascii) :
  Forall (fun c => is_StrWhiteSpaceChar c = false) ds ->
  StringToBigInt ("0"%char :: "x"%char :: ds) = nonempty_digits 16 ds.
Proof.
  intros Hds. unfold StringToBigInt. rewrite trim_not_space; [reflexivity|].
  constructor; [reflexivity|]. constructor; [reflexivity | exact Hds].
Qed.

Lemma log2_fuel (v : Z) : 0 <= v -> v < 2 ^ Z.of_nat (S (Z.to_nat (Z.log2 v))).
Proof.
  intros Hv. rewrite Nat2Z.inj_succ, Z2Nat.id by apply Z.log2_nonneg.
  destruct (Z.eq_dec v 0) as [->|Hne]; [reflexivity|].
  apply Z.log2_spec. lia.
Qed.

(** C9. Round trip: for every integer [v >= 0] and every base [b] in
    [2,36], decoding the standard base-[b] digit string of [v] returns
    exactly [v], an unbounded integer. *)
Theorem decode_encode_roundtrip (v b : Z) :
  0 <= v -> 2 <= b <= 36 -> decodeFromBase (encode v b) b = OK v.
Proof.
  intros Hv Hb. unfold decodeFromBase, encode.
  set (ds := encode_digits (S (Z.to_nat (Z.log2 v))) v b []).
  assert (Hfold : foldM (decode_step b) (map toLowerCase_char ds) 0 = OK v).
  { unfold ds. rewrite encode_digits_decode; [reflexivity | lia |].
    split; [lia | apply log2_fuel; lia]. }
  destruct (Z.eqb_spec b 16) as [->|Hb16].
  - unfold BigInt.
    change (list_ascii_of_string ("0x" ++ string_of_list_ascii ds))
      with ("0"%char :: "x"%char :: list_ascii_of_string (string_of_list_ascii ds)).
    rewrite list_ascii_of_string_of_list_ascii, StringToBigInt_hex
      by (apply encode_digits_not_space; [lia | lia | constructor]).
    assert (Hne : ds <> []) by apply encode_digits_nonempty.
    unfold nonempty_digits. destruct ds as [|d ds']; [congruence|].
    rewrite digits_MV_decode, Hfold. reflexivity.
  - rewrite list_ascii_of_string_of_list_ascii. exact Hfold.
Qed.

End DecoderFacts.

(* ===================================================================== *)
(** ** The subset enumerator *)
(* ===================================================================== *)

Section BacktrackFacts.
Context {A : Type}.
Variable k : Z.

Lemma backtrack_nil (cur : list A) :
  backtrack k [] cur = if Z.of_nat (length cur) =? k then [cur] else [].
Proof. reflexivity. Qed.

(** The loop of a call on [e :: r] is the call that takes [e] followed
    by the loop of the call that starts after [e]. *)
Lemma backtrack_cons (e : A) (r cur : list A) :
  backtrack k (e :: r) cur =
  if Z.of_nat (length cur) =? k then [cur]
  else backtrack k r (cur ++ [e]) ++ backtrack k r cur.
Proof.
  cbn [backtrack]. destruct (Z.of_nat (length cur) =? k) eqn:E; [reflexivity|].
  f_equal. destruct r; cbn [backtrack]; rewrite E; reflexivity.
Qed.

Lemma backtrack_sublists (rest : list A) :
  forall (cur : list A) (m : nat),
    Z.of_nat (length cur) + Z.of_nat m = k ->
    backtrack k rest cur = map (app cur) (sublists m rest).
Proof.
  induction rest as [|e r IH]; intros cur m Hm.
  - rewrite backtrack_nil. destruct m as [|m]; cbn [sublists map].
    + rewrite (proj2 (Z.eqb_eq _ _)) by lia. rewrite app_nil_r. reflexivity.
    + rewrite (proj2 (Z.eqb_neq _ _)) by lia. reflexivity.
  - rewrite backtrack_cons. destruct m as [|m]; cbn [sublists map].
    + rewrite (proj2 (Z.eqb_eq _ _)) by lia. rewrite app_nil_r. reflexivity.
    + rewrite (proj2 (Z.eqb_neq _ _)) by lia.
      rewrite (IH (cur ++ [e]) m), (IH cur (S m)).
      * rewrite map_app, map_map. f_equal. apply map_ext.
        intros c. rewrite <- app_assoc. reflexivity.
      * exact Hm.
      * rewrite length_app. cbn [length]. lia.
Qed.

Lemma backtrack_over (rest : list A) :
  forall cur : list A, k < Z.of_nat (length cur) -> backtrack k rest cur = [].
Proof.
  induction rest as [|e r IH]; intros cur Hk.
  - rewrite backtrack_nil, (proj2 (Z.eqb_neq _ _)) by lia. reflexivity.
  - rewrite backtrack_cons, (proj2 (Z.eqb_neq _ _)) by lia.
    rewrite (IH cur Hk), IH; [reflexivity|].
    rewrite length_app. cbn [length]. lia.
Qed.
End BacktrackFacts.

Lemma generateCombinations_sublists {A} (elements : list A) (k : Z) :
  0 <= k -> generateCombinations elements k = OK (sublists (Z.to_nat k) elements).
Proof.
  intros Hk. unfold generateCombinations. f_equal.
  rewrite (backtrack_sublists k elements [] (Z.to_nat k)) by (cbn [length]; lia).
  apply map_id.
Qed.

Lemma generateCombinations_negative {A} (elements : list A) (k : Z) :
  k < 0 -> generateCombinations elements k = OK [].
Proof.
  intros Hk. unfold generateCombinations. f_equal.
  apply backtrack_over. cbn [length]. lia.
Qed.

Section SublistsFacts.
Context {A : Type}.

Lemma sublists_length (l : list A) :
  forall m, length (sublists m l) = choose (length l) m.
Proof.
  induction l as [|a l IH]; intros [|m]; cbn [sublists choose length]; try reflexivity.
  rewrite length_app, length_map, !IH. reflexivity.
Qed.

Lemma sublists_too_many (l : list A) :
  forall m, (length l < m)%nat -> sublists m l = [].
Proof.
  induction l as [|a l IH]; intros [|m] Hm; cbn [sublists length] in *;
    try reflexivity; try lia.
  rewrite !IH by lia. reflexivity.
Qed.

Lemma sublists_map {B} (f : A -> B) (l : list A) :
  forall m, sublists m (map f l) = map (map f) (sublists m l).
Proof.
  induction l as [|a l IH]; intros [|m]; cbn [sublists map]; try reflexivity.
  rewrite map_app, !map_map, !IH, map_map. reflexivity.
Qed.
End SublistsFacts.

Lemma choose_too_many (n : nat) : forall k, (n < k)%nat -> choose n k = 0%nat.
Proof.
  induction n as [|n IH]; intros [|k] Hk; cbn [choose]; try reflexivity; try lia.
  rewrite !IH by lia. reflexivity.
Qed.

Lemma StronglySorted_map {A B} (R : A -> A -> Prop) (R' : B -> B -> Prop)
    (f : A -> B) (l : list A) :
  (forall a b, R a b -> R' (f a) (f b)) ->
  StronglySorted R l -> StronglySorted R' (map f l).
Proof.
  intros Hf. induction 1 as [|a l _ IH Hall]; cbn [map]; constructor; [exact IH|].
  apply List.Forall_map. eapply List.Forall_impl; [|exact Hall].
  intros b. apply Hf.
Qed.

(** The combinations of the positions [a, a+1, ..., a+n-1]. *)
Lemma sublists_seq_elem (n : nat) :
  forall (a m : nat) (c : list nat),
    In c (sublists m (seq a n)) <->
    length c = m /\ StronglySorted lt c /\ Forall (fun i => (a <= i < a + n)%nat) c.
Proof.
  assert (Hzero : forall (c : list nat) (P : nat -> Prop),
             In c [[]] <-> length c = 0%nat /\ StronglySorted lt c /\ Forall P c).
  { intros c P. split.
    - intros [<-|[]]. repeat split; constructor.
    - intros (Hl & _ & _). destruct c; [left; reflexivity | discriminate]. }
  induction n as [|n IH]; intros a [|m] c; cbn [seq sublists].
  - apply Hzero.
  - split; [intros []|]. intros (Hl & _ & HF).
    destruct c as [|h c]; [discriminate|]. inversion HF; lia.
  - apply Hzero.
  - rewrite in_app_iff, in_map_iff. split.
    + intros [(c' & <- & Hc') | Hc].
      * apply IH in Hc' as (Hl & HS & HF). split; [cbn [length]; lia|]. split.
        -- constructor; [exact HS|].
           eapply List.Forall_impl; [|exact HF]. cbn beta. lia.
        -- constructor; [lia|].
           eapply List.Forall_impl; [|exact HF]. cbn beta. lia.
      * apply IH in Hc as (Hl & HS & HF). split; [exact Hl|]. split; [exact HS|].
        eapply List.Forall_impl; [|exact HF]. cbn beta. lia.
    + intros (Hl & HS & HF). destruct c as [|h c']; [discriminate|].
      apply StronglySorted_inv in HS as [HS Hh].
      apply List.Forall_cons_iff in HF as [Hha HF].
      assert (Hboth : Forall (fun i => (h < i)%nat /\ (a <= i < a + S n)%nat) c')
        by (apply List.Forall_and; assumption).
      destruct (Nat.eq_dec h a) as [->|Hne].
      * left. exists c'. split; [reflexivity|]. apply IH.
        split; [cbn [length] in Hl; lia|]. split; [exact HS|].
        eapply List.Forall_impl; [|exact Hboth]. cbn beta. lia.
      * right. apply IH. split; [exact Hl|]. split; [constructor; assumption|].
        constructor; [lia|].
        eapply List.Forall_impl; [|exact Hboth]. cbn beta. lia.
Qed.

Lemma sublists_seq_lex (n : nat) :
  forall a m : nat, StronglySorted lex_lt (sublists m (seq a n)).
Proof.
  induction n as [|n IH]; intros a [|m]; cbn [seq sublists];
    try (repeat constructor; fail).
  apply StronglySorted_app_2.
  - intros c1 c2 Hc1%list_elem_of_In Hc2%list_elem_of_In.
    apply in_map_iff in Hc1 as (c' & <- & _).
    apply sublists_seq_elem in Hc2 as (Hl & _ & HF).
    destruct c2 as [|h t]; [discriminate|].
    apply List.Forall_cons_iff in HF as [Hh _].
    cbn [lex_lt]. left. lia.
  - apply (StronglySorted_map lex_lt); [|apply IH].
    intros c1 c2 Hlt. cbn [lex_lt]. right. split; [reflexivity | exact Hlt].
  - apply IH.
Qed.

Lemma map_lookup_total_seq {A} `{Inhabited A} (l : list A) :
  map (fun i => l !!! i) (seq 0 (length l)) = l.
Proof.
  enough (Hgen : forall pre : list A,
             map (fun i => (pre ++ l) !!! i) (seq (length pre) (length l)) = l)
    by apply (Hgen []).
  induction l as [|a l IH]; intros pre; [reflexivity|].
  cbn [length seq map]. f_equal.
  - apply list_lookup_total_middle. reflexivity.
  - specialize (IH (pre ++ [a])). rewrite length_app, Nat.add_1_r in IH.
    rewrite <- IH at 2. apply map_ext. intros i. rewrite <- app_assoc. reflexivity.
Qed.

(** C6. For a list of [n] points and [1 <= k <= n], the enumerator returns
    the combinations of [k] positions, applied to the points: there are
    [C(n,k)] of them, they are exactly the increasing sequences of [k]
    distinct positions (so each combination keeps the input order), and
    they come in lexicographic order of the positions. *)
Theorem generateCombinations_lexicographic (elements : list Point) (k : Z) :
  1 <= k <= Z.of_nat (length elements) ->
  exists idxs : list (list nat),
    generateCombinations (seq 0 (length elements)) k = OK idxs /\
    generateCombinations elements k
      = OK (map (map (fun i => elements !!! i)) idxs) /\
    length idxs = choose (length elements) (Z.to_nat k) /\
    (forall c, In c idxs <-> is_combination (length elements) (Z.to_nat k) c) /\
    StronglySorted lex_lt idxs.
Proof.
  intros Hk. exists (sublists (Z.to_nat k) (seq 0 (length elements))).
  split; [apply generateCombinations_sublists; lia|]. split.
  - rewrite generateCombinations_sublists by lia. f_equal.
    rewrite <- sublists_map, map_lookup_total_seq. reflexivity.
  - split; [rewrite sublists_length, length_seq; reflexivity|]. split.
    + intros c. rewrite sublists_seq_elem. unfold is_combination.
      split; intros (Hl & HS & HF); (split; [exact Hl|]; split; [exact HS|]);
        (eapply List.Forall_impl; [|exact HF]); cbn beta; lia.
    + apply sublists_seq_lex.
Qed.

Lemma generateCombinations_lexicographic_witness :
  1 <= 2 <= Z.of_nat (length [mkPoint 1 5; mkPoint 2 7; mkPoint 3 9]) /\
  exists idxs : list (list nat),
    generateCombinations (seq 0 3) 2 = OK idxs /\
    generateCombinations [mkPoint 1 5; mkPoint 2 7; mkPoint 3 9] 2
      = OK (map (map (fun i => [mkPoint 1 5; mkPoint 2 7; mkPoint 3 9] !!! i)) idxs) /\
    length idxs = choose 3 (Z.to_nat 2) /\
    (forall c, In c idxs <-> is_combination 3 (Z.to_nat 2) c) /\
    StronglySorted lex_lt idxs.
Proof.
  split; [cbn; lia|].
  apply (generateCombinations_lexicographic [mkPoint 1 5; mkPoint 2 7; mkPoint 3 9] 2).
  cbn; lia.
Defined.

(* ===================================================================== *)
(** ** The interpolator *)
(* ===================================================================== *)

Section MultiplyFacts.

Lemma zeros_length (n : nat) : length (zeros n) = n.
Proof. apply length_replicate. Qed.

Lemma zeros_S (n : nat) : zeros (S n) = 0 :: zeros n.
Proof. reflexivity. Qed.

Lemma insert_zero_zeros (n i : nat) : <[i := 0]> (zeros n) = zeros n.
Proof. apply insert_replicate. Qed.

Lemma lookup_total_head_zeros (c : Z) (m k : nat) :
  (1 <= k <= m)%nat -> (c :: zeros m) !!! k = 0.
Proof.
  intros Hk. destruct k as [|k]; [lia|].
  change ((c :: zeros m) !!! S k) with (zeros m !!! k).
  apply lookup_total_replicate_2. lia.
Qed.

(** An iteration that reads a zero entry at a position after the first
    leaves such an array as it is. *)
Lemma multiplyStep_zero (b : list Z) (xj c' : Z) (m k : nat) :
  (1 <= k)%nat -> b !!! k = 0 ->
  multiplyStep b xj (c' :: zeros m) k = c' :: zeros m.
Proof.
  intros Hk Hb. unfold multiplyStep. rewrite Hb, Z.mul_0_l.
  destruct k as [|k]; [lia|].
  change (<[S (S k) := 0]> (c' :: zeros m)) with (c' :: <[S k := 0]> (zeros m)).
  rewrite insert_zero_zeros.
  change (<[S k := 0]> (c' :: zeros m)) with (c' :: <[k := 0]> (zeros m)).
  rewrite insert_zero_zeros. reflexivity.
Qed.

Lemma multiplySteps_zero (b : list Z) (xj c' : Z) (m : nat) (ks : list nat) :
  Forall (fun k => (1 <= k)%nat /\ b !!! k = 0) ks ->
  fold_left (multiplyStep b xj) ks (c' :: zeros m) = c' :: zeros m.
Proof.
  induction 1 as [|k ks [Hk Hb] _ IH]; [reflexivity|].
  cbn [fold_left]. rewrite multiplyStep_zero by assumption. exact IH.
Qed.

(** With at least three entries and zeros after the first one, the
    multiplication loop only scales the first entry: the assignment
    [tempPolynomial[1] = basisPolynomial[0]] of the first iteration is
    overwritten by the second. *)
Lemma multiplyByLinear_head (n : nat) (c xj : Z) :
  multiplyByLinear (S (S (S n))) (c :: zeros (S (S n))) xj
  = (c * - xj) :: zeros (S (S n)).
Proof.
  unfold multiplyByLinear.
  replace (S (S (S n)) - 1)%nat with (S (S n)) by lia.
  change (seq 0 (S (S n))) with (0%nat :: 1%nat :: seq 2 n).
  cbn [fold_left].
  assert (Hfirst : multiplyStep (c :: zeros (S (S n))) xj
              (multiplyStep (c :: zeros (S (S n))) xj (zeros (S (S (S n)))) 0) 1
            = (c * - xj) :: zeros (S (S n))).
  { unfold multiplyStep.
    change ((c :: zeros (S (S n))) !!! 0%nat) with c.
    change ((c :: zeros (S (S n))) !!! 1%nat) with 0.
    rewrite Z.mul_0_l. reflexivity. }
  rewrite Hfirst. apply multiplySteps_zero.
  apply List.Forall_forall. intros k Hk%in_seq.
  split; [lia | apply lookup_total_head_zeros; lia].
Qed.

(** The arrays keep their length, so every read of the loops is in range. *)
Lemma multiplyByLinear_length (n : nat) (b : list Z) (xj : Z) :
  length (multiplyByLinear n b xj) = n.
Proof.
  unfold multiplyByLinear. rewrite <- (zeros_length n) at 3.
  generalize (zeros n) as t. generalize (seq 0 (n - 1)) as ks.
  induction ks as [|k ks IH]; intros t; [reflexivity|].
  cbn [fold_left]. rewrite IH. unfold multiplyStep.
  rewrite !length_insert. reflexivity.
Qed.

Lemma multiplyByLinear_two (b0 b1 xj : Z) :
  multiplyByLinear 2 [b0; b1] xj = [b0 * - xj; b0].
Proof. reflexivity. Qed.

End MultiplyFacts.

Section LoopFacts.

Lemma fold_left_pointwise {St X} (f g : St -> X -> St) (xs : list X) (s : St) :
  (forall s' a, f s' a = g s' a) -> fold_left f xs s = fold_left g xs s.
Proof.
  intros Hfg. revert s. induction xs as [|a xs IH]; intros s; [reflexivity|].
  cbn [fold_left]. rewrite Hfg. apply IH.
Qed.

Lemma fold_left_pair {S1 S2 X} (f1 : S1 -> X -> S1) (f2 : S2 -> X -> S2)
    (xs : list X) (s1 : S1) (s2 : S2) :
  fold_left (fun st a => (f1 st.1 a, f2 st.2 a)) xs (s1, s2)
  = (fold_left f1 xs s1, fold_left f2 xs s2).
Proof.
  revert s1 s2. induction xs as [|a xs IH]; intros s1 s2; [reflexivity|].
  cbn [fold_left fst snd]. apply IH.
Qed.

Lemma foldM_map {St X Y} (f : St -> Y -> Js.result St) (g : X -> Y)
    (xs : list X) (s : St) :
  foldM f (map g xs) s = foldM (fun s' a => f s' (g a)) xs s.
Proof.
  revert s. induction xs as [|a xs IH]; intros s; [reflexivity|].
  cbn [map foldM]. destruct (f s (g a)) as [s'|e]; [apply IH | reflexivity].
Qed.

(** A loop over all positions that skips position [i] is a loop over
    the list without its element [i]. *)
Lemma fold_left_skip {St} (g : St -> Point -> St) (i : nat) (l : list Point) :
  forall (pre : list Point) (st : St),
    fold_left (fun st j => if (i =? j)%nat then st else g st ((pre ++ l) !!! j))
              (seq (length pre) (length l)) st
    = fold_left g (if decide (length pre <= i)%nat
                   then delete (i - length pre)%nat l else l) st.
Proof.
  induction l as [|a l IH]; intros pre st.
  - destruct (decide (length pre <= i)%nat); reflexivity.
  - cbn [length seq fold_left].
    rewrite list_lookup_total_middle by reflexivity.
    specialize (IH (pre ++ [a])).
    rewrite length_app, Nat.add_1_r in IH.
    assert (Happ : (pre ++ [a]) ++ l = pre ++ a :: l)
      by (rewrite <- app_assoc; reflexivity).
    rewrite Happ in IH. rewrite IH.
    destruct (Nat.eqb_spec i (length pre)) as [->|Hne].
    + rewrite decide_False by lia. rewrite decide_True by lia.
      rewrite Nat.sub_diag. reflexivity.
    + destruct (decide (length pre <= i)%nat) as [Hle|Hgt].
      * rewrite decide_True by lia.
        replace (i - length pre)%nat with (S (i - S (length pre))) by lia.
        reflexivity.
      * rewrite decide_False by lia. reflexivity.
Qed.

(** A loop over all positions that uses the element and the rest of the
    list is a loop over the selections. *)
Lemma foldM_selections {St} (H : St -> Point -> list Point -> Js.result St)
    (l : list Point) :
  forall (pre : list Point) (s : St),
    foldM (fun s i => H s ((pre ++ l) !!! i) (delete i (pre ++ l)))
          (seq (length pre) (length l)) s
    = foldM (fun s sel => H s sel.1 (pre ++ sel.2)) (selections l) s.
Proof.
  induction l as [|a l IH]; intros pre s; [reflexivity|].
  cbn [length seq foldM selections fst snd].
  rewrite list_lookup_total_middle by reflexivity. rewrite delete_middle.
  destruct (H s a (pre ++ l)) as [s'|e]; [|reflexivity].
  cbn [mbind result_bind].
  specialize (IH (pre ++ [a]) s').
  rewrite length_app, Nat.add_1_r in IH.
  assert (Happ : (pre ++ [a]) ++ l = pre ++ a :: l)
    by (rewrite <- app_assoc; reflexivity).
  rewrite Happ in IH. rewrite IH, foldM_map.
  apply foldM_ext_in. intros s'' sel _. cbn [fst snd].
  rewrite <- app_assoc. reflexivity.
Qed.

End LoopFacts.

Section BasisFacts.

Lemma basisFold_head (n : nat) (others : list Point) :
  forall c : Z,
    fold_left (fun b q => multiplyByLinear (S (S (S n))) b (x q))
              others (c :: zeros (S (S n)))
    = fold_left (fun a q => a * - x q) others c :: zeros (S (S n)).
Proof.
  induction others as [|q others IH]; intros c; [reflexivity|].
  cbn [fold_left]. rewrite multiplyByLinear_head. apply IH.
Qed.

(** The loop over [j] computes [basisClosed]. *)
Lemma basisFold_closed (n : nat) (others : list Point) :
  S (length others) = n -> basisFold n others = basisClosed n others.
Proof.
  intros Hn. destruct n as [|[|[|n]]].
  - discriminate.
  - destruct others; [reflexivity | discriminate].
  - destruct others as [|q [|q' others]]; try discriminate. reflexivity.
  - unfold basisFold, basisClosed, numeratorOf.
    change (<[0%nat:=1]> (zeros (S (S (S n))))) with (1 :: zeros (S (S n))).
    rewrite basisFold_head. reflexivity.
Qed.

Lemma basisClosed_length (n : nat) (others : list Point) :
  (1 <= n)%nat -> length (basisClosed n others) = n.
Proof.
  intros Hn. unfold basisClosed. destruct n as [|[|[|n]]]; cbn [length];
    rewrite ?zeros_length; lia.
Qed.

(** The state of the loop over [j] for point [i]. *)
Lemma basisOf_selection (dataPoints : list Point) (i : nat) :
  basisOf dataPoints (length dataPoints) i
  = (basisFold (length dataPoints) (delete i dataPoints),
     denominatorOf (dataPoints !!! i) (delete i dataPoints)).
Proof.
  unfold basisOf, basisFold, denominatorOf.
  set (n := length dataPoints). set (xi := x (dataPoints !!! i)).
  rewrite <- fold_left_pair.
  pose proof (fold_left_skip
    (fun (st : list Z * Z) q => (multiplyByLinear n st.1 (x q), st.2 * (xi - x q)))
    i dataPoints []) as Hskip.
  cbn [app length] in Hskip. rewrite decide_True, Nat.sub_0_r in Hskip by lia.
  rewrite <- Hskip. apply fold_left_pointwise.
  intros [b d] j. unfold basisStep. reflexivity.
Qed.

End BasisFacts.

Section AccumulationFacts.

Lemma zip_with_map_same {X A B C} (h : A -> B -> C) (f1 : X -> A) (f2 : X -> B)
    (l : list X) :
  zip_with h (map f1 l) (map f2 l) = map (fun k => h (f1 k) (f2 k)) l.
Proof. induction l as [|a l IH]; [reflexivity|]. cbn. rewrite IH. reflexivity. Qed.

Lemma addContribution_eq (yi D : Z) (B c : list Z) (k : nat) :
  D <> 0 ->
  addContribution yi B D c k = OK (<[k := c !!! k + Z.quot (yi * (B !!! k)) D]> c).
Proof.
  intros HD. unfold addContribution, bigint_div.
  rewrite (proj2 (Z.eqb_neq D 0) HD). reflexivity.
Qed.

(** The loop that adds a contribution, for a non-zero denominator. *)
Lemma addContribution_all (yi D : Z) :
  D <> 0 ->
  forall (B2 c2 Bpre cpre : list Z),
    length Bpre = length cpre -> length B2 = length c2 ->
    foldM (addContribution yi (Bpre ++ B2) D)
          (seq (length cpre) (length c2)) (cpre ++ c2)
    = OK (cpre ++ zip_with Z.add c2 (map (fun b => Z.quot (yi * b) D) B2)).
Proof.
  intros HD. induction B2 as [|b B2 IH]; intros [|a c2] Bpre cpre Hpre Hlen;
    try discriminate; [reflexivity|].
  cbn [length seq foldM map zip_with].
  rewrite (addContribution_eq yi D (Bpre ++ b :: B2) (cpre ++ a :: c2) _ HD).
  cbn [mbind result_bind].
  rewrite (list_lookup_total_middle Bpre B2 b (length cpre)) by (symmetry; exact Hpre).
  rewrite (list_lookup_total_middle cpre c2 a (length cpre)) by reflexivity.
  rewrite insert_app_r_alt, Nat.sub_diag by lia.
  cbn [insert list_insert].
  specialize (IH c2 (Bpre ++ [b]) (cpre ++ [a + Z.quot (yi * b) D])).
  rewrite !length_app, <- !app_assoc in IH. cbn [app length] in IH.
  rewrite !Nat.add_1_r in IH.
  rewrite IH; [reflexivity | lia | cbn [length] in Hlen; lia].
Qed.

Lemma addContribution_seq (n : nat) (yi D : Z) (B : list Z) (a : nat -> Z) :
  D <> 0 -> length B = n ->
  foldM (addContribution yi B D) (seq 0 n) (map a (seq 0 n))
  = OK (map (fun k => a k + Z.quot (yi * (B !!! k)) D) (seq 0 n)).
Proof.
  intros HD HB.
  pose proof (addContribution_all yi D HD B (map a (seq 0 n)) [] []) as Hall.
  cbn [app length] in Hall. rewrite length_map, length_seq in Hall.
  rewrite Hall by (rewrite ?length_map, ?length_seq; auto). f_equal.
  rewrite <- (map_lookup_total_seq B) at 1. rewrite HB, map_map.
  apply zip_with_map_same.
Qed.

(** The outer loop, over any list of selections with non-zero
    denominators: each coefficient grows by the sum of its terms. *)
Lemma accumulate_selections (n : nat) (sels : list (Point * list Point)) :
  Forall (fun s => S (length s.2) = n /\ denominatorOf s.1 s.2 <> 0) sels ->
  forall a : nat -> Z,
    foldM (fun c s =>
             foldM (addContribution (y s.1) (basisFold n s.2) (denominatorOf s.1 s.2))
                   (seq 0 n) c)
          sels (map a (seq 0 n))
    = OK (map (fun k => a k + fold_right Z.add 0 (map (fun s => termOf n k s.1 s.2) sels))
              (seq 0 n)).
Proof.
  induction 1 as [|s sels [Hlen HD] _ IH]; intros a.
  - cbn [foldM map fold_right]. f_equal. apply map_ext. intros k. lia.
  - cbn [foldM map fold_right].
    rewrite basisFold_closed by exact Hlen.
    rewrite addContribution_seq; [| exact HD | apply basisClosed_length; lia].
    cbn [mbind result_bind]. rewrite IH. f_equal. apply map_ext. intros k.
    unfold termOf. lia.
Qed.

End AccumulationFacts.

Section SelectionFacts.

Lemma selections_spec (l : list Point) :
  Forall (fun s => S (length s.2) = length l /\ s.1 :: s.2 ≡ₚ l) (selections l).
Proof.
  induction l as [|a l IH]; cbn [selections]; constructor.
  - split; reflexivity.
  - apply List.Forall_map. eapply List.Forall_impl; [|exact IH].
    intros [p o] [Hlen Hperm]. cbn [fst snd length] in *. split; [lia|].
    rewrite perm_swap. apply perm_skip. exact Hperm.
Qed.

Lemma denominatorOf_nonzero (p : Point) (others : list Point) :
  Forall (fun q => x q <> x p) others -> denominatorOf p others <> 0.
Proof.
  unfold denominatorOf. assert (H1 : 1 <> 0) by lia. revert H1.
  generalize 1 as d. intros d Hd Hall. revert d Hd.
  induction Hall as [|q others Hq _ IH]; intros d Hd; [exact Hd|].
  cbn [fold_left]. apply IH. nia.
Qed.

Lemma selections_denominators (l : list Point) :
  NoDup (map x l) ->
  Forall (fun s => S (length s.2) = length l /\ denominatorOf s.1 s.2 <> 0)
         (selections l).
Proof.
  intros Hnd. eapply List.Forall_impl; [|apply selections_spec].
  intros [p o] [Hlen Hperm]. cbn [fst snd] in *. split; [exact Hlen|].
  apply denominatorOf_nonzero.
  apply (Permutation_map x) in Hperm. rewrite <- Hperm in Hnd.
  cbn [map] in Hnd. apply NoDup_cons in Hnd as [Hnotin _].
  apply List.Forall_forall. intros q Hq Heq. apply Hnotin.
  rewrite <- Heq. apply list_elem_of_In, in_map, Hq.
Qed.

End SelectionFacts.

(** The loops of [performLagrangeInterpolation] in closed form: with
    pairwise distinct abscissas no division fails, and coefficient [k] is
    the sum over the points of the truncated quotients
    [(yi * basis[k]) / denominator]. *)
Lemma performLagrangeInterpolation_closed (dataPoints : list Point) :
  NoDup (map x dataPoints) ->
  performLagrangeInterpolation dataPoints = OK (coefficientsClosed dataPoints).
Proof.
  intros Hnd. unfold performLagrangeInterpolation, coefficientsClosed.
  set (n := length dataPoints).
  transitivity
    (foldM (fun c s =>
              foldM (addContribution (y s.1) (basisFold n s.2) (denominatorOf s.1 s.2))
                    (seq 0 n) c)
           (selections dataPoints) (map (fun _ => 0) (seq 0 n))).
  - pose proof (foldM_selections
      (fun c p o => foldM (addContribution (y p) (basisFold n o) (denominatorOf p o))
                          (seq 0 n) c) dataPoints [] (zeros n)) as Hsel.
    cbn [app length] in Hsel. fold n in Hsel.
    replace (map (fun _ : nat => 0) (seq 0 n)) with (zeros n).
    + rewrite <- Hsel. apply foldM_ext_in. intros c i _.
      unfold pointStep. subst n. rewrite basisOf_selection. reflexivity.
    + unfold zeros. clear. generalize 0%nat as s.
      induction n as [|n IH]; intros s; [reflexivity|].
      cbn [replicate seq map]. f_equal. apply IH.
  - rewrite accumulate_selections by (apply selections_denominators; exact Hnd).
    reflexivity.
Qed.

Section PermutationFacts.

Lemma selection_sum_cons (f : Point -> list Point -> Z) (a : Point) (l : list Point) :
  selection_sum f (a :: l) = f a l + selection_sum (fun p o => f p (a :: o)) l.
Proof.
  unfold selection_sum. cbn [selections map fold_right fst snd].
  rewrite map_map. reflexivity.
Qed.

Lemma selection_sum_ext (f g : Point -> list Point -> Z) (l : list Point) :
  (forall p o, f p o = g p o) -> selection_sum f l = selection_sum g l.
Proof.
  intros Hfg. unfold selection_sum. f_equal. apply map_ext. intros s. apply Hfg.
Qed.

(** A sum over selections does not depend on the order of the list when
    the summand does not depend on the order of the other points. *)
Lemma selection_sum_perm (l l' : list Point) :
  l ≡ₚ l' ->
  forall f : Point -> list Point -> Z,
    (forall p o o', o ≡ₚ o' -> f p o = f p o') ->
    selection_sum f l = selection_sum f l'.
Proof.
  induction 1 as [|a l1 l2 Hp IH | a b l | l1 l2 l3 Hp1 IH1 Hp2 IH2]; intros f Hf.
  - reflexivity.
  - rewrite !selection_sum_cons. f_equal; [apply Hf; exact Hp|].
    apply IH. intros p o o' Ho. apply Hf. apply perm_skip. exact Ho.
  - rewrite !selection_sum_cons.
    rewrite (selection_sum_ext (fun p o => f p (b :: a :: o))
                               (fun p o => f p (a :: b :: o)))
      by (intros p o; apply Hf; apply perm_swap).
    lia.
  - rewrite (IH1 f Hf). apply IH2. exact Hf.
Qed.

Lemma fold_left_mul_perm (g : Point -> Z) (o o' : list Point) :
  o ≡ₚ o' ->
  forall acc : Z,
    fold_left (fun a q => a * g q) o acc = fold_left (fun a q => a * g q) o' acc.
Proof.
  induction 1 as [|a l1 l2 Hp IH | a b l | l1 l2 l3 Hp1 IH1 Hp2 IH2]; intros acc.
  - reflexivity.
  - cbn [fold_left]. apply IH.
  - cbn [fold_left]. f_equal. lia.
  - rewrite IH1. apply IH2.
Qed.

Lemma termOf_perm (n k : nat) (p : Point) (o o' : list Point) :
  o ≡ₚ o' -> termOf n k p o = termOf n k p o'.
Proof.
  intros Ho. unfold termOf, basisClosed, numeratorOf, denominatorOf.
  rewrite (fold_left_mul_perm (fun q => - x q) o o' Ho).
  rewrite (fold_left_mul_perm (fun q => x p - x q) o o' Ho).
  reflexivity.
Qed.

Lemma coefficientsClosed_perm (l l' : list Point) :
  l ≡ₚ l' -> coefficientsClosed l = coefficientsClosed l'.
Proof.
  intros Hp. unfold coefficientsClosed.
  rewrite <- (Permutation_length Hp). apply map_ext. intros k.
  apply selection_sum_perm; [exact Hp|]. intros p o o'. apply termOf_perm.
Qed.

End PermutationFacts.

(** C7. Two lists of points that are permutations of each other, with
    pairwise distinct x-values, give the same coefficient vector. *)
Theorem interpolation_order_independent (points points' : list Point) :
  points ≡ₚ points' ->
  NoDup (map x points) ->
  exists coeffs : list Z,
    performLagrangeInterpolation points = OK coeffs /\
    performLagrangeInterpolation points' = OK coeffs.
Proof.
  intros Hp Hnd. exists (coefficientsClosed points). split.
  - apply performLagrangeInterpolation_closed. exact Hnd.
  - rewrite (coefficientsClosed_perm points points' Hp).
    apply performLagrangeInterpolation_closed.
    rewrite <- (Permutation_map x Hp). exact Hnd.
Qed.

Lemma interpolation_order_independent_witness :
  [mkPoint 1 1; mkPoint 2 1; mkPoint 4 1] ≡ₚ [mkPoint 4 1; mkPoint 1 1; mkPoint 2 1] /\
  NoDup (map x [mkPoint 1 1; mkPoint 2 1; mkPoint 4 1]) /\
  exists coeffs : list Z,
    performLagrangeInterpolation [mkPoint 1 1; mkPoint 2 1; mkPoint 4 1] = OK coeffs /\
    performLagrangeInterpolation [mkPoint 4 1; mkPoint 1 1; mkPoint 2 1] = OK coeffs.
Proof.
  assert (Hp : [mkPoint 1 1; mkPoint 2 1; mkPoint 4 1]
               ≡ₚ [mkPoint 4 1; mkPoint 1 1; mkPoint 2 1]).
  { symmetry.
    apply (Permutation_cons_app [mkPoint 1 1; mkPoint 2 1] [] (mkPoint 4 1)).
    reflexivity. }
  assert (Hnd : NoDup (map x [mkPoint 1 1; mkPoint 2 1; mkPoint 4 1])).
  { apply (bool_decide_unpack _). vm_compute. exact I. }
  split; [exact Hp|]. split; [exact Hnd|].
  exact (interpolation_order_independent _ _ Hp Hnd).
Defined.

(* ===================================================================== *)
(** ** The recovery *)
(* ===================================================================== *)

Section MapFacts.

Lemma map_get_entries (g : Z -> nat) (keys : list Z) (c : Z) :
  map_get (map (fun c' => (c', g c')) keys) c
  = if in_dec Z.eq_dec c keys then Some (g c) else None.
Proof.
  induction keys as [|a keys IH]; [reflexivity|].
  cbn [map map_get]. destruct (Z.eqb_spec a c) as [->|Hne].
  - destruct (in_dec Z.eq_dec c (c :: keys)) as [_|Hnin]; [reflexivity|].
    exfalso. apply Hnin. left. reflexivity.
  - rewrite IH.
    destruct (in_dec Z.eq_dec c keys) as [Hin|Hnin],
             (in_dec Z.eq_dec c (a :: keys)) as [Hin'|Hnin']; try reflexivity.
    + exfalso. apply Hnin'. right. exact Hin.
    + exfalso. destruct Hin' as [Heq|Hin']; [exact (Hne Heq) | exact (Hnin Hin')].
Qed.

Lemma map_set_entries_new (g : Z -> nat) (keys : list Z) (c : Z) (v : nat) :
  ~ In c keys ->
  map_set (map (fun c' => (c', g c')) keys) c v
  = map (fun c' => (c', g c')) keys ++ [(c, v)].
Proof.
  induction keys as [|a keys IH]; intros Hnin; [reflexivity|].
  cbn [map map_set app]. destruct (Z.eqb_spec a c) as [->|Hne].
  - exfalso. apply Hnin. left. reflexivity.
  - rewrite IH; [reflexivity|]. intros Hin. apply Hnin. right. exact Hin.
Qed.

Lemma map_set_entries_old (g : Z -> nat) (keys : list Z) (c : Z) (v : nat) :
  List.NoDup keys -> In c keys ->
  map_set (map (fun c' => (c', g c')) keys) c v
  = map (fun c' => (c', if c' =? c then v else g c')) keys.
Proof.
  induction keys as [|a keys IH]; intros Hnd Hin; [destruct Hin|].
  apply List.NoDup_cons_iff in Hnd as [Ha Hnd].
  cbn [map map_set]. destruct (Z.eqb_spec a c) as [->|Hne].
  - f_equal. apply map_ext_in. intros c' Hc'.
    destruct (Z.eqb_spec c' c) as [->|_]; [contradiction | reflexivity].
  - f_equal. apply IH; [exact Hnd|]. destruct Hin as [Heq|Hin]; [contradiction | exact Hin].
Qed.

End MapFacts.

Section FirstSeenFacts.

Lemma see_elem (seen : list Z) (c c' : Z) :
  In c' (see seen c) <-> In c' seen \/ c' = c.
Proof.
  unfold see. destruct (in_dec Z.eq_dec c seen) as [Hin|Hnin].
  - split; [tauto|]. intros [H| ->]; assumption.
  - rewrite in_app_iff. cbn [In]. intuition congruence.
Qed.

Lemma see_NoDup (seen : list Z) (c : Z) :
  List.NoDup seen -> List.NoDup (see seen c).
Proof.
  intros Hnd. unfold see. destruct (in_dec Z.eq_dec c seen) as [Hin|Hnin]; [exact Hnd|].
  apply List.NoDup_app; [exact Hnd | repeat constructor; intros [] |].
  intros a Ha Ha'. destruct Ha' as [Heq|Hf]; [|destruct Hf].
  subst. exact (Hnin Ha).
Qed.

Lemma fold_see_elem (cs : list Z) :
  forall (seen : list Z) (c : Z),
    In c (fold_left see cs seen) <-> In c seen \/ In c cs.
Proof.
  induction cs as [|a cs IH]; intros seen c; cbn [fold_left In]; [tauto|].
  rewrite IH, see_elem. split; intros H; intuition congruence.
Qed.

Lemma fold_see_NoDup (cs : list Z) :
  forall seen : list Z, List.NoDup seen -> List.NoDup (fold_left see cs seen).
Proof.
  induction cs as [|a cs IH]; intros seen Hnd; [exact Hnd|].
  cbn [fold_left]. apply IH, see_NoDup, Hnd.
Qed.

Lemma fold_see_prefix (cs : list Z) :
  forall seen : list Z, exists ext, fold_left see cs seen = seen ++ ext.
Proof.
  induction cs as [|a cs IH]; intros seen.
  - exists []. rewrite app_nil_r. reflexivity.
  - cbn [fold_left]. destruct (IH (see seen a)) as [ext Hext]. rewrite Hext.
    unfold see. destruct (in_dec Z.eq_dec a seen).
    + exists ext. reflexivity.
    + exists ([a] ++ ext). rewrite <- app_assoc. reflexivity.
Qed.

Lemma first_seen_elem (cs : list Z) (c : Z) : In c (first_seen cs) <-> In c cs.
Proof. unfold first_seen. rewrite fold_see_elem. cbn [In]. tauto. Qed.

Lemma first_seen_NoDup (cs : list Z) : List.NoDup (first_seen cs).
Proof. apply fold_see_NoDup. constructor. Qed.

Lemma first_seen_snoc (cs : list Z) (c : Z) :
  first_seen (cs ++ [c]) = see (first_seen cs) c.
Proof. unfold first_seen. rewrite fold_left_app. reflexivity. Qed.

(** A candidate that occurs before the first occurrence of [s] comes
    before [s] among the distinct candidates. *)
Lemma first_seen_order (pre post k1 k2 : list Z) (c s : Z) :
  first_seen (pre ++ c :: post) = k1 ++ s :: k2 ->
  ~ In s pre -> c <> s -> In c k1.
Proof.
  intros Hkeys Hs Hne.
  assert (Hsplit : pre ++ c :: post = (pre ++ [c]) ++ post)
    by (rewrite <- app_assoc; reflexivity).
  unfold first_seen in Hkeys. rewrite Hsplit, fold_left_app in Hkeys.
  destruct (fold_see_prefix post (fold_left see (pre ++ [c]) [])) as [ext Hext].
  rewrite Hext in Hkeys.
  assert (Hc : In c (fold_left see (pre ++ [c]) []))
    by (apply fold_see_elem; right; apply in_or_app; right; left; reflexivity).
  assert (Hnots : ~ In s (fold_left see (pre ++ [c]) [])).
  { rewrite fold_see_elem, in_app_iff. cbn [In]. intuition congruence. }
  apply app_eq_app in Hkeys as [l [[HA Hrest] | [Hk1 _]]].
  - destruct l as [|s' l].
    + rewrite app_nil_r in HA. rewrite <- HA. exact Hc.
    + exfalso. apply Hnots. cbn [app] in Hrest. injection Hrest as <- _.
      rewrite HA. apply in_or_app. right. left. reflexivity.
  - rewrite Hk1. apply in_or_app. left. exact Hc.
Qed.

Lemma occurrences_app (c : Z) (l1 l2 : list Z) :
  occurrences c (l1 ++ l2) = (occurrences c l1 + occurrences c l2)%nat.
Proof.
  induction l1 as [|a l1 IH]; [reflexivity|].
  cbn [app occurrences]. rewrite IH. lia.
Qed.

Lemma occurrences_pos (c : Z) (cs : list Z) : In c cs <-> (1 <= occurrences c cs)%nat.
Proof.
  induction cs as [|a cs IH]; cbn [In occurrences]; [lia|].
  destruct (Z.eqb_spec a c) as [->|Hne].
  - split; [lia | intros _; left; reflexivity].
  - rewrite <- IH. cbn. tauto.
Qed.

Lemma occurrences_le_length (c : Z) (cs : list Z) :
  (occurrences c cs <= length cs)%nat.
Proof.
  induction cs as [|a cs IH]; cbn [occurrences length]; [lia|].
  destruct (a =? c); lia.
Qed.

End FirstSeenFacts.

Section TallyFacts.

(** The [try]/[catch] of one combination: its candidate is counted, or
    the map is left as it was. *)
Lemma tallyStep_candidate (m : SecretMap) (comb : list Point) :
  tallyStep m comb
  = match candidate comb with Some c => increment m c | None => m end.
Proof.
  unfold tallyStep, tallyBody, candidate, try_catch.
  destruct (performLagrangeInterpolation comb) as [[|c coeffs]|e]; reflexivity.
Qed.

Lemma tally_from (combs : list (list Point)) :
  forall m : SecretMap,
    fold_left tallyStep combs m = fold_left increment (candidates combs) m.
Proof.
  induction combs as [|comb combs IH]; intros m; [reflexivity|].
  cbn [fold_left candidates]. rewrite tallyStep_candidate.
  destruct (candidate comb) as [c|]; cbn [fold_left]; apply IH.
Qed.

Lemma increment_entries (pre : list Z) (c : Z) :
  increment (entries pre) c = entries (pre ++ [c]).
Proof.
  unfold increment, entries. rewrite first_seen_snoc, map_get_entries.
  unfold see. destruct (in_dec Z.eq_dec c (first_seen pre)) as [Hin|Hnin].
  - rewrite map_set_entries_old by (apply first_seen_NoDup || exact Hin).
    apply map_ext. intros c'. f_equal. rewrite occurrences_app.
    cbn [occurrences default]. unfold id. rewrite (Z.eqb_sym c c').
    destruct (Z.eqb_spec c' c) as [->|Hne]; lia.
  - rewrite map_set_entries_new by exact Hnin.
    rewrite map_app. cbn [map default]. f_equal.
    + apply map_ext_in. intros c' Hc'. f_equal. rewrite occurrences_app.
      cbn [occurrences]. destruct (Z.eqb_spec c c') as [->|Hne]; [contradiction | lia].
    + f_equal. f_equal. rewrite occurrences_app. cbn [occurrences].
      rewrite Z.eqb_refl.
      assert (Hzero : occurrences c pre = 0%nat).
      { destruct (occurrences c pre) eqn:E; [reflexivity|].
        exfalso. apply Hnin, first_seen_elem, occurrences_pos. lia. }
      lia.
Qed.

Lemma fold_increment_entries (cs : list Z) :
  forall pre : list Z, fold_left increment cs (entries pre) = entries (pre ++ cs).
Proof.
  induction cs as [|c cs IH]; intros pre.
  - rewrite app_nil_r. reflexivity.
  - cbn [fold_left]. rewrite increment_entries, IH, <- app_assoc. reflexivity.
Qed.

(** The map built by the [forEach]: one entry per distinct candidate, in
    the order of first occurrence, with its number of occurrences. *)
Lemma tally_entries (combs : list (list Point)) :
  tally combs = entries (candidates combs).
Proof. unfold tally. rewrite tally_from. apply (fold_increment_entries _ []). Qed.

Lemma candidates_length (combs : list (list Point)) :
  (length (candidates combs) <= length combs)%nat.
Proof.
  induction combs as [|comb combs IH]; cbn [candidates length]; [lia|].
  destruct (candidate comb); cbn [length]; lia.
Qed.

Lemma candidates_app (l1 l2 : list (list Point)) :
  candidates (l1 ++ l2) = candidates l1 ++ candidates l2.
Proof.
  induction l1 as [|comb l1 IH]; [reflexivity|].
  cbn [app candidates]. destruct (candidate comb); rewrite IH; reflexivity.
Qed.

(** The reducer keeps the first entry with the largest count. *)
Lemma reduce_first_max (es : list (Z * nat)) (e : Z * nat) :
  exists l1 l2,
    e :: es = l1 ++ fold_left moreFrequent es e :: l2 /\
    Forall (fun e' => (e'.2 < (fold_left moreFrequent es e).2)%nat) l1 /\
    Forall (fun e' => (e'.2 <= (fold_left moreFrequent es e).2)%nat) l2.
Proof.
  induction es as [|e' es IH] using rev_ind.
  - exists [], []. repeat split; constructor.
  - destruct IH as (l1 & l2 & Heq & H1 & H2).
    rewrite fold_left_app. cbn [fold_left].
    set (best := fold_left moreFrequent es e) in *.
    unfold moreFrequent. destruct (Nat.ltb_spec best.2 e'.2) as [Hlt|Hge].
    + exists (l1 ++ best :: l2), []. split; [|split; [|constructor]].
      * rewrite app_comm_cons, Heq. rewrite <- !app_assoc. reflexivity.
      * apply List.Forall_app. split.
        -- eapply List.Forall_impl; [|exact H1]. cbn beta. lia.
        -- constructor; [exact Hlt|].
           eapply List.Forall_impl; [|exact H2]. cbn beta. lia.
    + exists l1, (l2 ++ [e']). split; [|split; [exact H1|]].
      * rewrite app_comm_cons, Heq. rewrite <- !app_assoc. reflexivity.
      * apply List.Forall_app. split; [exact H2|]. constructor; [exact Hge | constructor].
Qed.

(** [findSecretWithMinimumRoots] in terms of the candidate sequence. *)
Lemma findSecret_unfold (allRoots : list Point) (k : Z) :
  findSecretWithMinimumRoots allRoots k =
  let combs := backtrack k allRoots [] in
  match entries (candidates combs) with
  | [] => Throw NoValidCandidates
  | e :: es =>
      OK {| secret := (fold_left moreFrequent es e).1;
            frequency := map_get (entries (candidates combs))
                                 (fold_left moreFrequent es e).1;
            totalCombinations := length combs |}
  end.
Proof.
  unfold findSecretWithMinimumRoots, generateCombinations.
  cbn [mbind result_bind]. rewrite tally_entries.
  destruct (entries (candidates (backtrack k allRoots []))); reflexivity.
Qed.

Lemma entries_nil (cs : list Z) : entries cs = [] <-> cs = [].
Proof.
  split; [|intros ->; reflexivity].
  unfold entries. intros H%map_eq_nil. destruct cs as [|c cs]; [reflexivity|].
  exfalso. assert (Hin : In c (first_seen (c :: cs)))
    by (apply first_seen_elem; left; reflexivity).
  rewrite H in Hin. destruct Hin.
Qed.

(** What a successful recovery returns. *)
Lemma findSecret_OK (allRoots : list Point) (k : Z) (r : RecoveryResult) :
  findSecretWithMinimumRoots allRoots k = OK r ->
  let combs := backtrack k allRoots [] in
  let cs := candidates combs in
  totalCombinations r = length combs /\
  frequency r = Some (occurrences (secret r) cs) /\
  exists k1 k2,
    first_seen cs = k1 ++ secret r :: k2 /\
    (forall c, In c k1 -> (occurrences c cs < occurrences (secret r) cs)%nat) /\
    (forall c, In c k2 -> (occurrences c cs <= occurrences (secret r) cs)%nat).
Proof.
  rewrite findSecret_unfold. cbn zeta.
  set (cs := candidates (backtrack k allRoots [])).
  destruct (entries cs) as [|e es] eqn:Hent; [discriminate|].
  intros [= <-]. cbn [secret frequency totalCombinations].
  destruct (reduce_first_max es e) as (l1 & l2 & Heq & H1 & H2).
  set (best := fold_left moreFrequent es e) in *.
  rewrite <- Hent in Heq. unfold entries in Heq.
  apply map_eq_app in Heq as (k1 & k2' & Hkeys & Hl1 & Hl2).
  destruct k2' as [|s k2]; [discriminate|]. cbn [map] in Hl2.
  injection Hl2 as Hbest Hl2.
  assert (Hs : best.1 = s) by (rewrite <- Hbest; reflexivity).
  assert (Hf : best.2 = occurrences s cs) by (rewrite <- Hbest; reflexivity).
  split; [reflexivity|]. split.
  - change (map_get (e :: es) best.1 = Some (occurrences best.1 cs)).
    rewrite <- Hent, Hs. unfold entries. rewrite map_get_entries.
    destruct (in_dec Z.eq_dec s (first_seen cs)) as [_|Hnin]; [reflexivity|].
    exfalso. apply Hnin. rewrite Hkeys. apply in_or_app. right. left. reflexivity.
  - exists k1, k2. rewrite Hs. split; [exact Hkeys|]. rewrite <- Hf. split.
    + intros c Hc. rewrite <- Hl1 in H1.
      rewrite List.Forall_map, List.Forall_forall in H1. exact (H1 c Hc).
    + intros c Hc. rewrite <- Hl2 in H2.
      rewrite List.Forall_map, List.Forall_forall in H2. exact (H2 c Hc).
Qed.

End TallyFacts.

(* ===================================================================== *)
(** ** Properties of the recovery *)
(* ===================================================================== *)

Lemma backtrack_of_generate (allRoots : list Point) (k : Z) (combs : list (list Point)) :
  generateCombinations allRoots k = OK combs -> backtrack k allRoots [] = combs.
Proof. unfold generateCombinations. intros [= H]. exact H. Qed.

Lemma totalCombinations_choose (allRoots : list Point) (k : Z) (r : RecoveryResult) :
  0 <= k ->
  findSecretWithMinimumRoots allRoots k = OK r ->
  totalCombinations r = choose (length allRoots) (Z.to_nat k).
Proof.
  intros Hk Hr. apply findSecret_OK in Hr as [Htot _]. rewrite Htot.
  rewrite (backtrack_of_generate allRoots k _ (generateCombinations_sublists allRoots k Hk)).
  apply sublists_length.
Qed.

(** C10. When the recovery succeeds, [frequency] is a number between 1
    and [totalCombinations], it is the count the tally holds for the
    returned secret, and no candidate of the tally has a greater count. *)
Theorem recovery_frequency_bounds (allRoots : list Point) (k : Z) (r : RecoveryResult) :
  findSecretWithMinimumRoots allRoots k = OK r ->
  exists (combs : list (list Point)) (f : nat),
    generateCombinations allRoots k = OK combs /\
    frequency r = Some f /\
    (1 <= f <= totalCombinations r)%nat /\
    map_get (tally combs) (secret r) = Some f /\
    (forall c n, map_get (tally combs) c = Some n -> (n <= f)%nat).
Proof.
  intros Hr. apply findSecret_OK in Hr. cbn zeta in Hr.
  set (combs := backtrack k allRoots []) in *.
  set (cs := candidates combs) in *.
  destruct Hr as (Htot & Hfreq & k1 & k2 & Hkeys & Hk1 & Hk2).
  assert (Hin : In (secret r) (first_seen cs))
    by (rewrite Hkeys; apply in_or_app; right; left; reflexivity).
  exists combs, (occurrences (secret r) cs).
  split; [reflexivity|]. split; [exact Hfreq|]. split; [|split].
  - split; [apply occurrences_pos, first_seen_elem, Hin|].
    rewrite Htot. etransitivity; [apply occurrences_le_length | apply candidates_length].
  - rewrite tally_entries. fold cs. unfold entries. rewrite map_get_entries.
    destruct (in_dec Z.eq_dec (secret r) (first_seen cs)); [reflexivity | contradiction].
  - intros c n. rewrite tally_entries. fold cs. unfold entries.
    rewrite map_get_entries.
    destruct (in_dec Z.eq_dec c (first_seen cs)) as [Hc|_]; [|discriminate].
    intros [= <-]. rewrite Hkeys in Hc.
    apply in_app_or in Hc as [Hc|[<-|Hc]].
    + apply Nat.lt_le_incl, Hk1, Hc.
    + reflexivity.
    + apply Hk2, Hc.
Qed.

Lemma recovery_frequency_bounds_witness :
  findSecretWithMinimumRoots
    [mkPoint 1 1; mkPoint 2 4; mkPoint 3 9; mkPoint 4 16] 3
  = OK (mkResult 0 (Some 3%nat) 4) /\
  exists (combs : list (list Point)) (f : nat),
    generateCombinations [mkPoint 1 1; mkPoint 2 4; mkPoint 3 9; mkPoint 4 16] 3
      = OK combs /\
    Some 3%nat = Some f /\
    (1 <= f <= 4)%nat /\
    map_get (tally combs) 0 = Some f /\
    (forall c n, map_get (tally combs) c = Some n -> (n <= f)%nat).
Proof.
  split; [reflexivity|].
  apply (recovery_frequency_bounds
           [mkPoint 1 1; mkPoint 2 4; mkPoint 3 9; mkPoint 4 16] 3
           (mkResult 0 (Some 3%nat) 4)).
  reflexivity.
Defined.

Lemma first_occurrence_split (s : Z) (cs : list Z) :
  In s cs -> exists pre post, cs = pre ++ s :: post /\ ~ In s pre.
Proof.
  induction cs as [|a cs IH]; intros Hin; [destruct Hin|].
  destruct (Z.eq_dec a s) as [->|Hne].
  - exists [], cs. split; [reflexivity | intros []].
  - destruct Hin as [Heq|Hin]; [contradiction|].
    destruct (IH Hin) as (pre & post & -> & Hpre).
    exists (a :: pre), post. split; [reflexivity|].
    intros [Heq|Hin']; [contradiction | exact (Hpre Hin')].
Qed.

(** C3. When the recovery succeeds, the returned secret is a candidate
    whose count (its number of occurrences among the candidates, which
    is what the tally holds) is the largest: it is greater than or equal
    to the count of every candidate, and strictly greater than the count
    of every other candidate unless that candidate shares the largest
    count. When candidates share the largest count, the returned secret
    is the one produced first in the order of the enumeration: it is
    produced before any candidate that shares its count, and every other
    candidate produced before it has a strictly smaller count. *)
Theorem majority_first_seen (allRoots : list Point) (k : Z) (r : RecoveryResult) :
  findSecretWithMinimumRoots allRoots k = OK r ->
  exists combs : list (list Point),
    generateCombinations allRoots k = OK combs /\
    In (secret r) (candidates combs) /\
    frequency r = Some (occurrences (secret r) (candidates combs)) /\
    (forall c, In c (candidates combs) ->
       map_get (tally combs) c = Some (occurrences c (candidates combs)) /\
       (occurrences c (candidates combs)
        <= occurrences (secret r) (candidates combs))%nat) /\
    (forall pre c post,
       candidates combs = pre ++ c :: post ->
       ~ In (secret r) pre -> c <> secret r ->
       (occurrences c (candidates combs)
        < occurrences (secret r) (candidates combs))%nat) /\
    ((forall c, In c (candidates combs) -> c <> secret r ->
        occurrences c (candidates combs)
        <> occurrences (secret r) (candidates combs)) ->
     forall c, In c (candidates combs) -> c <> secret r ->
       (occurrences c (candidates combs)
        < occurrences (secret r) (candidates combs))%nat) /\
    (forall c, In c (candidates combs) -> c <> secret r ->
       occurrences c (candidates combs)
       = occurrences (secret r) (candidates combs) ->
       exists pre post,
         candidates combs = pre ++ secret r :: post /\
         ~ In (secret r) pre /\ ~ In c pre).
Proof.
  intros Hr. apply findSecret_OK in Hr. cbn zeta in Hr.
  set (combs := backtrack k allRoots []) in *.
  set (cs := candidates combs) in *.
  destruct Hr as (Htot & Hfreq & k1 & k2 & Hkeys & Hk1 & Hk2).
  assert (Hin : In (secret r) (first_seen cs))
    by (rewrite Hkeys; apply in_or_app; right; left; reflexivity).
  assert (Hmax : forall c, In c cs ->
            (occurrences c cs <= occurrences (secret r) cs)%nat).
  { intros c Hc. apply first_seen_elem in Hc.
    rewrite Hkeys in Hc. apply in_app_or in Hc as [Hc|[<-|Hc]].
    - apply Nat.lt_le_incl, Hk1, Hc.
    - reflexivity.
    - apply Hk2, Hc. }
  assert (Hbefore : forall pre c post,
            cs = pre ++ c :: post -> ~ In (secret r) pre -> c <> secret r ->
            (occurrences c cs < occurrences (secret r) cs)%nat).
  { intros pre c post Hcs Hpre Hne. apply Hk1.
    rewrite Hcs in Hkeys. exact (first_seen_order _ _ _ _ _ _ Hkeys Hpre Hne). }
  exists combs. split; [reflexivity|]. fold cs.
  split; [apply first_seen_elem, Hin|]. split; [exact Hfreq|].
  split; [|split; [exact Hbefore|split]].
  - intros c Hc. split; [|exact (Hmax c Hc)]. apply first_seen_elem in Hc.
    rewrite tally_entries. fold cs. unfold entries. rewrite map_get_entries.
    destruct (in_dec Z.eq_dec c (first_seen cs)); [reflexivity | contradiction].
  - intros Hunique c Hc Hne.
    pose proof (Hmax c Hc). pose proof (Hunique c Hc Hne). lia.
  - intros c Hc Hne Heq.
    destruct (first_occurrence_split (secret r) cs) as (pre & post & Hcs & Hpre);
      [apply first_seen_elem, Hin|].
    exists pre, post. split; [exact Hcs|]. split; [exact Hpre|].
    intros Hcpre. apply in_split in Hcpre as (p1 & p2 & ->).
    assert (Hlt : (occurrences c cs < occurrences (secret r) cs)%nat).
    { apply (Hbefore p1 c (p2 ++ secret r :: post)); [| |exact Hne].
      - rewrite Hcs, <- app_assoc. reflexivity.
      - intros Hs. apply Hpre. apply in_or_app. left. exact Hs. }
    lia.
Qed.

Lemma majority_first_seen_witness :
  findSecretWithMinimumRoots [mkPoint 1 5; mkPoint 2 7] 1
  = OK (mkResult 5 (Some 1%nat) 2) /\
  exists combs : list (list Point),
    generateCombinations [mkPoint 1 5; mkPoint 2 7] 1 = OK combs /\
    In 5 (candidates combs) /\
    Some 1%nat = Some (occurrences 5 (candidates combs)) /\
    (forall c, In c (candidates combs) ->
       map_get (tally combs) c = Some (occurrences c (candidates combs)) /\
       (occurrences c (candidates combs) <= occurrences 5 (candidates combs))%nat) /\
    (forall pre c post,
       candidates combs = pre ++ c :: post ->
       ~ In 5 pre -> c <> 5 ->
       (occurrences c (candidates combs) < occurrences 5 (candidates combs))%nat) /\
    ((forall c, In c (candidates combs) -> c <> 5 ->
        occurrences c (candidates combs) <> occurrences 5 (candidates combs)) ->
     forall c, In c (candidates combs) -> c <> 5 ->
       (occurrences c (candidates combs) < occurrences 5 (candidates combs))%nat) /\
    (forall c, In c (candidates combs) -> c <> 5 ->
       occurrences c (candidates combs) = occurrences 5 (candidates combs) ->
       exists pre post,
         candidates combs = pre ++ 5 :: post /\ ~ In 5 pre /\ ~ In c pre).
Proof.
  split; [reflexivity|].
  apply (majority_first_seen [mkPoint 1 5; mkPoint 2 7] 1 (mkResult 5 (Some 1%nat) 2)).
  reflexivity.
Defined.

Lemma occurrences_candidates (c : Z) (combs : list (list Point)) :
  occurrences c (candidates combs) = Reference.subsets_yielding c combs.
Proof.
  unfold Reference.subsets_yielding.
  induction combs as [|comb combs IH]; [reflexivity|].
  cbn [candidates List.filter]. unfold candidate, Reference.yields.
  destruct (performLagrangeInterpolation comb) as [[|c0 coeffs]|e]; try exact IH.
  cbn [occurrences]. destruct (c0 =? c); cbn [length]; rewrite IH; reflexivity.
Qed.

Lemma tally_skip (l1 l2 : list (list Point)) (comb : list Point) (e : exn) :
  performLagrangeInterpolation comb = Throw e ->
  tally (l1 ++ comb :: l2) = tally (l1 ++ l2).
Proof.
  intros He. rewrite !tally_entries, !candidates_app. cbn [candidates].
  unfold candidate. rewrite He. reflexivity.
Qed.

Lemma findSecret_fails_iff (allRoots : list Point) (k : Z) :
  findSecretWithMinimumRoots allRoots k = Throw NoValidCandidates
  <-> tally (backtrack k allRoots []) = [].
Proof.
  rewrite findSecret_unfold, tally_entries. cbn zeta.
  destruct (entries (candidates (backtrack k allRoots []))); split;
    intros H; try reflexivity; discriminate.
Qed.

(** C8. An interpolation error in one subset does not end the recovery:
    that subset adds nothing to the tally, and all the other subsets are
    processed: the tally holds, for every value, the number of subsets
    whose interpolation yields it, and the returned frequency is the
    largest of these numbers. The recovery fails exactly when the tally
    is empty after all subsets, that is when no subset yields a value,
    and then with [NoValidCandidates] and no other error. *)
Theorem failed_subset_skipped (allRoots : list Point) (k : Z) :
  exists combs : list (list Point),
    generateCombinations allRoots k = OK combs /\
    (forall l1 comb l2 e,
       combs = l1 ++ comb :: l2 ->
       performLagrangeInterpolation comb = Throw e ->
       tally combs = tally (l1 ++ l2)) /\
    (findSecretWithMinimumRoots allRoots k = Throw NoValidCandidates
     <-> tally combs = []) /\
    (forall e, findSecretWithMinimumRoots allRoots k = Throw e ->
               e = NoValidCandidates /\ tally combs = []) /\
    (forall c, map_get (tally combs) c
               = if (Reference.subsets_yielding c combs =? 0)%nat then None
                 else Some (Reference.subsets_yielding c combs)) /\
    (tally combs = [] <-> forall c, Reference.subsets_yielding c combs = 0%nat) /\
    (forall r, findSecretWithMinimumRoots allRoots k = OK r ->
       frequency r = Some (Reference.subsets_yielding (secret r) combs) /\
       (1 <= Reference.subsets_yielding (secret r) combs)%nat /\
       forall c, (Reference.subsets_yielding c combs
                  <= Reference.subsets_yielding (secret r) combs)%nat).
Proof.
  exists (backtrack k allRoots []). split; [reflexivity|].
  split; [|split; [|split; [|split; [|split]]]].
  - intros l1 comb l2 e -> He. exact (tally_skip l1 l2 comb e He).
  - apply findSecret_fails_iff.
  - intros e He. rewrite <- findSecret_fails_iff.
    rewrite findSecret_unfold in He |- *. cbn zeta in He |- *.
    destruct (entries (candidates (backtrack k allRoots []))); [|discriminate].
    injection He as <-. split; reflexivity.
  - intros c. rewrite tally_entries. unfold entries.
    rewrite map_get_entries, <- occurrences_candidates.
    set (cs := candidates (backtrack k allRoots [])).
    destruct (in_dec Z.eq_dec c (first_seen cs)) as [Hin|Hnin].
    + apply (proj1 (first_seen_elem cs c)) in Hin.
      apply (proj1 (occurrences_pos c cs)) in Hin.
      destruct (Nat.eqb_spec (occurrences c cs) 0); [lia | reflexivity].
    + destruct (Nat.eqb_spec (occurrences c cs) 0) as [|Hpos]; [reflexivity|].
      exfalso. apply Hnin. apply (proj2 (first_seen_elem cs c)).
      apply (proj2 (occurrences_pos c cs)). lia.
  - rewrite tally_entries, entries_nil.
    set (cs := candidates (backtrack k allRoots [])). split.
    + intros Hnil c. rewrite <- occurrences_candidates. fold cs.
      rewrite Hnil. reflexivity.
    + intros Hzero. destruct cs as [|c0 cs'] eqn:Hcs; [reflexivity|].
      specialize (Hzero c0). rewrite <- occurrences_candidates in Hzero.
      fold cs in Hzero. rewrite Hcs in Hzero. cbn [occurrences] in Hzero.
      rewrite Z.eqb_refl in Hzero. discriminate.
  - intros r Hr. apply findSecret_OK in Hr. cbn zeta in Hr.
    set (cs := candidates (backtrack k allRoots [])) in *.
    destruct Hr as (_ & Hfreq & k1 & k2 & Hkeys & Hk1 & Hk2).
    assert (Hin : In (secret r) (first_seen cs))
      by (rewrite Hkeys; apply in_or_app; right; left; reflexivity).
    rewrite <- !occurrences_candidates. fold cs.
    split; [exact Hfreq|].
    split; [apply (proj1 (occurrences_pos _ cs)), (proj1 (first_seen_elem cs _)), Hin|].
    intros c. rewrite <- occurrences_candidates. fold cs.
    destruct (in_dec Z.eq_dec c (first_seen cs)) as [Hc|Hc].
    + rewrite Hkeys in Hc. apply in_app_or in Hc as [Hc|[<-|Hc]].
      * apply Nat.lt_le_incl, Hk1, Hc.
      * reflexivity.
      * apply Hk2, Hc.
    + destruct (occurrences c cs) eqn:E; [lia|].
      exfalso. apply Hc. apply (proj2 (first_seen_elem cs c)).
      apply (proj2 (occurrences_pos c cs)). lia.
Qed.

Lemma failed_subset_skipped_witness :
  performLagrangeInterpolation [mkPoint 1 5; mkPoint 1 7] = Throw RangeError /\
  findSecretWithMinimumRoots [mkPoint 1 5; mkPoint 1 7; mkPoint 2 9] 2
  = OK (mkResult 1 (Some 1%nat) 3) /\
  exists combs : list (list Point),
    generateCombinations [mkPoint 1 5; mkPoint 1 7; mkPoint 2 9] 2 = OK combs /\
    tally combs = tally [[mkPoint 1 5; mkPoint 2 9]; [mkPoint 1 7; mkPoint 2 9]] /\
    map_get (tally combs) 5
    = (if (Reference.subsets_yielding 5 combs =? 0)%nat then None
       else Some (Reference.subsets_yielding 5 combs)) /\
    Reference.subsets_yielding 5 combs = 1%nat /\
    Some 1%nat = Some (Reference.subsets_yielding 1 combs).
Proof.
  split; [reflexivity|]. split; [reflexivity|].
  destruct (failed_subset_skipped [mkPoint 1 5; mkPoint 1 7; mkPoint 2 9] 2)
    as (combs & Hgen & Hskip & _ & _ & Hcount & _ & Hres).
  exists combs. split; [exact Hgen|]. split; [|split; [exact (Hcount 5)|split]].
  - apply (Hskip [] [mkPoint 1 5; mkPoint 1 7]
                 [[mkPoint 1 5; mkPoint 2 9]; [mkPoint 1 7; mkPoint 2 9]] RangeError).
    + apply backtrack_of_generate in Hgen. rewrite <- Hgen. reflexivity.
    + reflexivity.
  - apply backtrack_of_generate in Hgen. rewrite <- Hgen. reflexivity.
  - exact (proj1 (Hres (mkResult 1 (Some 1%nat) 3) eq_refl)).
Defined.

(** C4, as the code has it. The enumeration has no failure of its own:
    for [k] greater than the number of points or negative it returns no
    combination, and for [k = 0] the single empty combination. In each
    of these cases the recovery then fails with [NoValidCandidates]. *)
Theorem enumeration_out_of_range (allRoots : list Point) (k : Z) :
  k > Z.of_nat (length allRoots) \/ k < 1 ->
  generateCombinations allRoots k = OK (if k =? 0 then [[]] else []) /\
  findSecretWithMinimumRoots allRoots k = Throw NoValidCandidates.
Proof.
  intros Hk.
  assert (Hgen : generateCombinations allRoots k = OK (if k =? 0 then [[]] else [])).
  { destruct (Z.eqb_spec k 0) as [->|Hne].
    - rewrite generateCombinations_sublists by lia.
      destruct allRoots; reflexivity.
    - destruct (Z_lt_le_dec k 0) as [Hneg|Hpos].
      + apply generateCombinations_negative. exact Hneg.
      + rewrite generateCombinations_sublists by lia.
        rewrite sublists_too_many by lia. reflexivity. }
  split; [exact Hgen|].
  apply findSecret_fails_iff. apply backtrack_of_generate in Hgen. rewrite Hgen.
  destruct (k =? 0); reflexivity.
Qed.

Lemma enumeration_out_of_range_witness :
  (0 > Z.of_nat (length [mkPoint 1 5; mkPoint 2 7]) \/ 0 < 1) /\
  generateCombinations [mkPoint 1 5; mkPoint 2 7] 0 = OK (if 0 =? 0 then [[]] else []) /\
  findSecretWithMinimumRoots [mkPoint 1 5; mkPoint 2 7] 0 = Throw NoValidCandidates.
Proof.
  split; [right; lia|].
  apply (enumeration_out_of_range [mkPoint 1 5; mkPoint 2 7] 0). right. lia.
Defined.

(** C4, as stated, fails: for [k = 0], and for [k] greater than the
    number of points, the enumeration returns normally. *)
Lemma enumeration_failure_counterexample :
  ~ (forall (allRoots : list Point) (k : Z),
        k > Z.of_nat (length allRoots) \/ k < 1 ->
        is_OK (generateCombinations allRoots k) = false).
Proof.
  intros H. specialize (H [mkPoint 1 5; mkPoint 2 7] 0 (or_intror eq_refl)).
  discriminate H.
Qed.

(* ===================================================================== *)
(** ** Where the code departs from the intended behaviour *)
(* ===================================================================== *)

Section DecoderPaths.

Lemma decode_loop_digits_MV (b : Z) (ds : list ascii) :
  forall acc : Z,
    foldM (decode_step b) (map toLowerCase_char ds) acc
    = match digits_MV b ds acc with
      | Some v => OK v
      | None => Throw InvalidDigit
      end.
Proof.
  induction ds as [|d ds IH]; intros acc; [reflexivity|].
  cbn [map digits_MV foldM].
  rewrite (decode_step_eq b acc (toLowerCase_char d)), digit_of_char_lower.
  unfold digitValueOf.
  destruct (_ && _); [|destruct (_ && _)]; cbn [mbind result_bind];
    try reflexivity;
    rewrite Z.ltb_antisym; (destruct (b <=? _); [reflexivity | apply IH]).
Qed.

Lemma digits_MV_valid (b : Z) (ds : list ascii) :
  forall acc : Z,
    (exists v, digits_MV b ds acc = Some v) <-> forallb (valid_digit b) ds = true.
Proof.
  induction ds as [|d ds IH]; intros acc; cbn [digits_MV forallb].
  - split; [reflexivity | intros _; eexists; reflexivity].
  - unfold valid_digit at 1. destruct (digit_of_char d) as [v|].
    + destruct (v <? b); cbn [andb]; [apply IH|].
      split; [intros [? ?]; discriminate | discriminate].
    + split; [intros [? ?]; discriminate | discriminate].
Qed.

(** The manual loop, taken for every base other than 16: it fails, with
    [InvalidDigit], exactly when some character is not a digit of the
    base. *)
Lemma decode_other_bases (value : string) (base : Z) :
  base <> 16 ->
  if forallb (valid_digit base) (list_ascii_of_string value)
  then exists v, decodeFromBase value base = OK v
  else decodeFromBase value base = Throw InvalidDigit.
Proof.
  intros Hb. unfold decodeFromBase. rewrite (proj2 (Z.eqb_neq base 16) Hb).
  rewrite decode_loop_digits_MV.
  pose proof (digits_MV_valid base (list_ascii_of_string value) 0) as Hv.
  destruct (digits_MV base (list_ascii_of_string value) 0) as [v|].
  - rewrite (proj1 Hv) by (eexists; reflexivity). eexists; reflexivity.
  - destruct (forallb _ _); [|reflexivity].
    destruct (proj2 Hv eq_refl) as [v Hv']. discriminate.
Qed.

Lemma trim_start_app (l l' : list ascii) (c : ascii) :
  is_StrWhiteSpaceChar c = false ->
  trim_start (l ++ c :: l') = trim_start l ++ c :: l'.
Proof.
  intros Hc. induction l as [|a l IH]; cbn [app trim_start].
  - rewrite Hc. reflexivity.
  - destruct (is_StrWhiteSpaceChar a); [exact IH | reflexivity].
Qed.

(** The shortcut taken for base 16: white space at the end of the value
    is dropped by [BigInt], and what is left must be a non-empty
    sequence of hexadecimal digits. *)
Lemma decode_base_16 (value : string) :
  decodeFromBase value 16
  = match nonempty_digits 16
            (rev (trim_start (rev (list_ascii_of_string value)))) with
    | Some v => OK v
    | None => Throw SyntaxError
    end.
Proof.
  unfold decodeFromBase, BigInt, StringToBigInt. cbn [Z.eqb Pos.eqb].
  change (list_ascii_of_string ("0x" ++ value))
    with ("0"%char :: "x"%char :: list_ascii_of_string value).
  set (cs := list_ascii_of_string value).
  assert (Htrim : trim ("0"%char :: "x"%char :: cs)
                  = "0"%char :: "x"%char :: rev (trim_start (rev cs))).
  { unfold trim. cbn [trim_start]. change (is_StrWhiteSpaceChar "0") with false.
    cbn [rev]. rewrite <- app_assoc. cbn [app].
    rewrite trim_start_app by reflexivity.
    rewrite rev_app_distr. reflexivity. }
  rewrite Htrim. reflexivity.
Qed.

End DecoderPaths.

(** C5 at the inputs where the base-16 shortcut departs from it: a value
    with a trailing space decodes although the space is not a digit, and
    the empty value fails although it has no invalid character; the
    manual loop rejects the first and accepts the second. The digit 'g'
    in base 16 does fail, with the [SyntaxError] of [BigInt]. *)
Theorem decode_base_16_shortcut :
  valid_digit 16 " " = false /\
  decodeFromBase "ab " 16 = OK 171 /\
  decodeFromBase "ab " 36 = Throw InvalidDigit /\
  decodeFromBase "" 16 = Throw SyntaxError /\
  decodeFromBase "" 10 = OK 0 /\
  decodeFromBase "g" 16 = Throw SyntaxError.
Proof. repeat split; reflexivity. Qed.

Lemma decode_encode_roundtrip_witness :
  0 <= 171 /\ 2 <= 16 <= 36 /\ decodeFromBase (encode 171 16) 16 = OK 171.
Proof.
  split; [lia|]. split; [lia|].
  apply (decode_encode_roundtrip 171 16); lia.
Defined.

Section InterpolationDefect.

Lemma selection_sum_zero (f : Point -> list Point -> Z) (l : list Point) :
  (forall p o, f p o = 0) -> selection_sum f l = 0.
Proof.
  intros Hf. unfold selection_sum.
  induction (selections l) as [|s sels IH]; [reflexivity|].
  cbn [map fold_right]. rewrite Hf, IH. reflexivity.
Qed.

(** With three or more points of distinct abscissas the returned vector
    has zeros at every index but 0: the multiplication loop assigns
    where it should add, so only the constant term of each basis
    polynomial survives. *)
Lemma higher_coefficients_vanish (dataPoints : list Point) :
  NoDup (map x dataPoints) -> (3 <= length dataPoints)%nat ->
  exists c0 : Z,
    performLagrangeInterpolation dataPoints
    = OK (c0 :: zeros (length dataPoints - 1)).
Proof.
  intros Hnd Hlen. rewrite performLagrangeInterpolation_closed by exact Hnd.
  unfold coefficientsClosed.
  destruct (length dataPoints) as [|[|[|n]]] eqn:Hn; try lia.
  cbn [seq map]. eexists. f_equal. f_equal.
  change (S (S (S n)) - 1)%nat with (S (S n)).
  assert (Hmap : forall (ks : list nat),
             Forall (fun k => (1 <= k <= S (S n))%nat) ks ->
             map (fun k => selection_sum (termOf (S (S (S n))) k) dataPoints) ks
             = zeros (length ks)).
  { induction 1 as [|k ks Hk _ IH]; [reflexivity|].
    cbn [map length]. rewrite zeros_S, IH. f_equal.
    apply selection_sum_zero. intros p o. unfold termOf, basisClosed.
    change (S (S (S n)) - 1)%nat with (S (S n)).
    rewrite lookup_total_head_zeros by exact Hk.
    rewrite Z.mul_0_r. reflexivity. }
  specialize (Hmap (seq 1 (S (S n)))). rewrite length_seq in Hmap.
  apply Hmap. apply List.Forall_forall. intros k Hk%in_seq. lia.
Qed.

End InterpolationDefect.

(** C1 at inputs where the code departs from it. The points (1,1), (2,4),
    (3,9) lie on [x^2], whose coefficient vector is [0; 0; 1], and the
    code returns [0; 0; 0]. The points (1,1), (2,1), (4,1) lie on the
    constant polynomial 1, and the code returns the constant term 0: the
    quotients 8/3 and 2/6 are truncated one by one. No error is raised. *)
Theorem interpolation_not_exact :
  Forall (on_poly [0; 0; 1]) [mkPoint 1 1; mkPoint 2 4; mkPoint 3 9] /\
  performLagrangeInterpolation [mkPoint 1 1; mkPoint 2 4; mkPoint 3 9]
    = OK [0; 0; 0] /\
  Forall (on_poly [1; 0; 0]) [mkPoint 1 1; mkPoint 2 1; mkPoint 4 1] /\
  performLagrangeInterpolation [mkPoint 1 1; mkPoint 2 1; mkPoint 4 1]
    = OK [0; 0; 0].
Proof. repeat split; repeat constructor. Qed.

(** C2 at an input where the code departs from it. The four points
    (1,1), (2,4), (3,9), (4,16) lie on [x^2] and k = 3: the four subsets
    give the constant terms 0, -1, 0, 0, so the returned frequency is 3
    while the number of subsets is 4 = C(4,3). *)
Theorem consistent_shares_disagree :
  Forall (on_poly [0; 0; 1]) [mkPoint 1 1; mkPoint 2 4; mkPoint 3 9; mkPoint 4 16] /\
  (exists combs,
      generateCombinations [mkPoint 1 1; mkPoint 2 4; mkPoint 3 9; mkPoint 4 16] 3
        = OK combs /\
      candidates combs = [0; -1; 0; 0]) /\
  findSecretWithMinimumRoots [mkPoint 1 1; mkPoint 2 4; mkPoint 3 9; mkPoint 4 16] 3
    = OK (mkResult 0 (Some 3%nat) 4) /\
  choose 4 3 = 4%nat.
Proof.
  split; [repeat constructor|]. split; [eexists; split; reflexivity|].
  split; reflexivity.
Qed.

(* ===================================================================== *)
(** ** Further properties of the decoder *)
(* ===================================================================== *)

Import Reference.

Section DecoderValue.




Lemma digit_of_char_range (c : ascii) (v : Z) :
  digit_of_char c = Some v -> 0 <= v < 36.
Proof.
  destruct c as [[] [] [] [] [] [] [] []]; intros H; vm_compute in H;
    try discriminate H; injection H as <-; lia.
Qed.

(** A successful run of the digit loop from a non-negative accumulator
    stays within the interval the accumulator opens. *)
Lemma digits_MV_bounds (b : Z) (ds : list ascii) :
  forall acc v : Z,
    0 <= acc ->
    digits_MV b ds acc = Some v ->
    acc * b ^ Z.of_nat (length ds) <= v < (acc + 1) * b ^ Z.of_nat (length ds).
Proof.
  induction ds as [|d ds IH]; intros acc v Hacc Hv.
  - cbn in Hv. injection Hv as <-. cbn. lia.
  - cbn [digits_MV] in Hv.
    destruct (digit_of_char d) as [dv|] eqn:Hd; [|discriminate].
    destruct (Z.ltb_spec dv b) as [Hlt|]; [|discriminate].
    assert (Hdv : 0 <= dv) by (apply (digit_of_char_range d dv Hd)).
    apply IH in Hv; [|nia].
    cbn [length]. rewrite Nat2Z.inj_succ, Z.pow_succ_r by lia.
    assert (Hp : 0 <= b ^ Z.of_nat (length ds)) by (apply Z.pow_nonneg; lia).
    nia.
Qed.


Lemma valid_lower (b : Z) (c : ascii) :
  valid_digit b (toLowerCase_char c) = valid_digit b c.
Proof.
  unfold valid_digit.
  replace (digit_of_char (toLowerCase_char c)) with (digit_of_char c);
    [reflexivity|].
  destruct c as [[] [] [] [] [] [] [] []]; reflexivity.
Qed.

Lemma lower_lower (c : ascii) :
  toLowerCase_char (toLowerCase_char c) = toLowerCase_char c.
Proof. destruct c as [[] [] [] [] [] [] [] []]; reflexivity. Qed.

Lemma space_lower (c : ascii) :
  is_StrWhiteSpaceChar (toLowerCase_char c) = is_StrWhiteSpaceChar c.
Proof. destruct c as [[] [] [] [] [] [] [] []]; reflexivity. Qed.

Lemma digit_lower (c : ascii) :
  digit_of_char (toLowerCase_char c) = digit_of_char c.
Proof. destruct c as [[] [] [] [] [] [] [] []]; reflexivity. Qed.

Lemma length_list_ascii (s : string) :
  length (list_ascii_of_string s) = String.length s.
Proof. induction s as [|c s IH]; [reflexivity|]. cbn. rewrite IH. reflexivity. Qed.

Lemma trim_start_length (l : list ascii) : (length (trim_start l) <= length l)%nat.
Proof.
  induction l as [|c l IH]; [reflexivity|].
  cbn [trim_start]. destruct (is_StrWhiteSpaceChar c); cbn [length]; lia.
Qed.

End DecoderValue.


Lemma decodeFromBase_loop (value : string) (base : Z) :
  base <> 16 ->
  decodeFromBase value base
  = match digits_MV base (list_ascii_of_string value) 0 with
    | Some v => OK v
    | None => Throw InvalidDigit
    end.
Proof.
  intros Hb. unfold decodeFromBase. rewrite (proj2 (Z.eqb_neq base 16) Hb).
  apply decode_loop_digits_MV.
Qed.





Lemma trim_start_lower (l : list ascii) :
  trim_start (map toLowerCase_char l) = map toLowerCase_char (trim_start l).
Proof.
  induction l as [|c l IH]; [reflexivity|].
  cbn [map trim_start]. rewrite space_lower.
  destruct (is_StrWhiteSpaceChar c); [exact IH | reflexivity].
Qed.

Lemma digits_MV_lower (b : Z) (ds : list ascii) :
  forall acc : Z, digits_MV b (map toLowerCase_char ds) acc = digits_MV b ds acc.
Proof.
  induction ds as [|d ds IH]; intros acc; [reflexivity|].
  cbn [map digits_MV]. rewrite digit_lower.
  destruct (digit_of_char d) as [v|]; [|reflexivity].
  destruct (v <? b); [apply IH | reflexivity].
Qed.

(** X3. Decoding does not depend on the case of the letters: a value
    and its lower-case form decode alike, in every base. *)
Theorem decode_case_insensitive (value : string) (base : Z) :
  decodeFromBase (toLowerCase value) base = decodeFromBase value base.
Proof.
  unfold toLowerCase. set (cs := list_ascii_of_string value).
  destruct (Z.eq_dec base 16) as [->|Hb].
  - rewrite !decode_base_16, list_ascii_of_string_of_list_ascii. fold cs.
    rewrite <- map_rev, trim_start_lower, <- map_rev.
    unfold nonempty_digits.
    destruct (rev (trim_start (rev cs))) as [|c t]; [reflexivity|].
    change (toLowerCase_char c :: map toLowerCase_char t)
      with (map toLowerCase_char (c :: t)).
    cbn [map]. rewrite <- (digits_MV_lower 16 (c :: t) 0). reflexivity.
  - rewrite !decodeFromBase_loop by exact Hb.
    rewrite list_ascii_of_string_of_list_ascii. fold cs.
    rewrite digits_MV_lower. reflexivity.
Qed.

Lemma decodeFromBase_range (value : string) (base v : Z) :
  decodeFromBase value base = OK v ->
  0 <= v < base ^ Z.of_nat (String.length value).
Proof.
  rewrite <- length_list_ascii.
  destruct (Z.eq_dec base 16) as [->|Hb].
  - rewrite decode_base_16. set (cs := list_ascii_of_string value).
    set (t := rev (trim_start (rev cs))).
    assert (Hlen : (length t <= length cs)%nat).
    { unfold t. rewrite length_rev. etransitivity; [apply trim_start_length|].
      rewrite length_rev. reflexivity. }
    unfold nonempty_digits. destruct t as [|c t'] eqn:Ht; [discriminate|].
    destruct (digits_MV 16 (c :: t') 0) as [v'|] eqn:Hmv; [|discriminate].
    intros [= <-]. apply digits_MV_bounds in Hmv; [|lia].
    assert (16 ^ Z.of_nat (length (c :: t')) <= 16 ^ Z.of_nat (length cs))
      by (apply Z.pow_le_mono_r; lia).
    lia.
  - rewrite decodeFromBase_loop by exact Hb.
    destruct (digits_MV base (list_ascii_of_string value) 0) as [v'|] eqn:Hmv;
      [|discriminate].
    intros [= <-]. apply digits_MV_bounds in Hmv; lia.
Qed.

(** X4. A decoded number is non-negative and smaller than the base to
    the power of the number of characters of the value. *)
Theorem decode_bounds (value : string) (base v : Z) :
  decodeFromBase value base = OK v ->
  0 <= v < base ^ Z.of_nat (String.length value).
Proof. exact (decodeFromBase_range value base v). Qed.

Lemma decode_bounds_witness :
  decodeFromBase "zz" 36 = OK 1295 /\ 0 <= 1295 < 36 ^ Z.of_nat (String.length "zz").
Proof. split; [reflexivity|]. apply (decode_bounds "zz" 36 1295). reflexivity. Defined.



(** X6. For base 16 the result is the one the digit loop gives on the
    value without its trailing white space, except that an empty rest
    fails and that every failure is the [SyntaxError] of [BigInt]. *)
Theorem decode_base_16_as_loop (value : string) :
  decodeFromBase value 16
  = match rev (trim_start (rev (list_ascii_of_string value))) with
    | [] => Throw SyntaxError
    | c :: t =>
        match foldM (decode_step 16) (map toLowerCase_char (c :: t)) 0 with
        | OK v => OK v
        | Throw _ => Throw SyntaxError
        end
    end.
Proof.
  rewrite decode_base_16. unfold nonempty_digits.
  destruct (rev (trim_start (rev (list_ascii_of_string value)))) as [|c t];
    [reflexivity|].
  rewrite decode_loop_digits_MV.
  destruct (digits_MV 16 (c :: t) 0); reflexivity.
Qed.

(* ===================================================================== *)
(** ** Further properties of the interpolator *)
(* ===================================================================== *)

Section InterpolationOutcome.

(** The outer loop as a loop over the selections, for any points. *)
Lemma performLagrangeInterpolation_selections (dataPoints : list Point) :
  performLagrangeInterpolation dataPoints
  = foldM (fun c s =>
             foldM (addContribution (y s.1) (basisFold (length dataPoints) s.2)
                                    (denominatorOf s.1 s.2))
                   (seq 0 (length dataPoints)) c)
          (selections dataPoints) (zeros (length dataPoints)).
Proof.
  unfold performLagrangeInterpolation. set (n := length dataPoints).
  pose proof (foldM_selections
    (fun c p o => foldM (addContribution (y p) (basisFold n o) (denominatorOf p o))
                        (seq 0 n) c) dataPoints [] (zeros n)) as Hsel.
  cbn [app length] in Hsel. fold n in Hsel. rewrite <- Hsel.
  apply foldM_ext_in. intros c i _.
  unfold pointStep. subst n. rewrite basisOf_selection. reflexivity.
Qed.

Lemma addContribution_loop_OK (yi D : Z) (B : list Z) (ks : list nat) :
  D <> 0 ->
  forall c : list Z, exists c', foldM (addContribution yi B D) ks c = OK c'.
Proof.
  intros HD. induction ks as [|k ks IH]; intros c; [eexists; reflexivity|].
  cbn [foldM]. rewrite (addContribution_eq yi D B c k HD).
  cbn [mbind result_bind]. apply IH.
Qed.

Lemma fold_left_mul_zero (g : Point -> Z) (others : list Point) :
  fold_left (fun d q => d * g q) others 0 = 0.
Proof. induction others as [|q others IH]; [reflexivity|]. cbn [fold_left]. exact IH. Qed.

Lemma denominatorOf_zero (p : Point) (others : list Point) :
  In (x p) (map x others) -> denominatorOf p others = 0.
Proof.
  unfold denominatorOf. generalize 1 as d.
  induction others as [|q others IH]; intros d Hin; [destruct Hin|].
  cbn [fold_left]. destruct Hin as [Heq|Hin]; [|apply IH, Hin].
  cbn [map] in Heq. rewrite Heq, Z.sub_diag, Z.mul_0_r.
  apply fold_left_mul_zero.
Qed.

Lemma fold_left_mul_scale (g : Point -> Z) (others : list Point) :
  forall c d : Z,
    fold_left (fun d q => d * g q) others (c * d)
    = c * fold_left (fun d q => d * g q) others d.
Proof.
  induction others as [|q others IH]; intros c d; [reflexivity|].
  cbn [fold_left]. rewrite <- IH. f_equal. lia.
Qed.

Lemma denominatorOf_cons (p a : Point) (others : list Point) :
  denominatorOf p (a :: others) = (x p - x a) * denominatorOf p others.
Proof.
  unfold denominatorOf. cbn [fold_left].
  rewrite <- fold_left_mul_scale. f_equal. lia.
Qed.

Lemma repeated_abscissa_selection (l : list Point) :
  ~ NoDup (map x l) ->
  Exists (fun s => denominatorOf s.1 s.2 = 0) (selections l).
Proof.
  induction l as [|a l IH]; intros Hnd.
  - exfalso. apply Hnd. constructor.
  - cbn [selections]. destruct (in_dec Z.eq_dec (x a) (map x l)) as [Hin|Hnin].
    + apply Exists_cons_hd. apply denominatorOf_zero. exact Hin.
    + apply Exists_cons_tl. apply List.Exists_map.
      assert (Hl : ~ NoDup (map x l)).
      { intros Hl. apply Hnd. cbn [map]. apply NoDup_cons. split; [|exact Hl].
        intros Hin%list_elem_of_In. exact (Hnin Hin). }
      eapply List.Exists_impl; [|exact (IH Hl)].
      intros [p o] Hz. cbn [fst snd] in *.
      rewrite denominatorOf_cons, Hz. lia.
Qed.

Lemma selections_loop_throws (n : nat) (sels : list (Point * list Point)) :
  (1 <= n)%nat ->
  Exists (fun s => denominatorOf s.1 s.2 = 0) sels ->
  forall c : list Z,
    foldM (fun c s =>
             foldM (addContribution (y s.1) (basisFold n s.2) (denominatorOf s.1 s.2))
                   (seq 0 n) c)
          sels c
    = Throw RangeError.
Proof.
  intros Hn. induction sels as [|s sels IH]; intros Hex c.
  - inversion Hex.
  - cbn [foldM]. destruct (Z.eq_dec (denominatorOf s.1 s.2) 0) as [Hz|Hnz].
    + rewrite Hz. destruct n as [|n]; [lia|]. reflexivity.
    + destruct (addContribution_loop_OK (y s.1) (denominatorOf s.1 s.2)
                  (basisFold n s.2) (seq 0 n) Hnz c) as [c' Hc'].
      rewrite Hc'. cbn [mbind result_bind]. apply IH.
      apply List.Exists_cons in Hex as [Hz|Hex]; [contradiction | exact Hex].
Qed.

End InterpolationOutcome.

(** X7. The interpolation succeeds exactly when the x-values of the
    points are pairwise distinct; it then returns one coefficient per
    point. Otherwise it fails, and the only error it raises is the
    [RangeError] of a BigInt division by zero. *)
Theorem interpolation_succeeds_iff_distinct (dataPoints : list Point) :
  (is_OK (performLagrangeInterpolation dataPoints) = true
   <-> NoDup (map x dataPoints)) /\
  (forall coeffs, performLagrangeInterpolation dataPoints = OK coeffs ->
                  length coeffs = length dataPoints) /\
  (forall e, performLagrangeInterpolation dataPoints = Throw e -> e = RangeError).
Proof.
  destruct (decide (NoDup (map x dataPoints))) as [Hnd|Hnd].
  - rewrite (performLagrangeInterpolation_closed dataPoints Hnd).
    split; [split; [intros _; exact Hnd | reflexivity]|].
    split; [|discriminate].
    intros coeffs [= <-]. unfold coefficientsClosed.
    rewrite length_map, length_seq. reflexivity.
  - assert (Hthrow : performLagrangeInterpolation dataPoints = Throw RangeError).
    { rewrite performLagrangeInterpolation_selections.
      apply selections_loop_throws; [|apply repeated_abscissa_selection, Hnd].
      destruct dataPoints; [|cbn [length]; lia].
      exfalso. apply Hnd. constructor. }
    rewrite Hthrow. split; [split; [discriminate | contradiction]|].
    split; [discriminate|]. intros e [= <-]. reflexivity.
Qed.

Section TwoPoints.

Lemma quot_difference (A B D q : Z) :
  0 <= A -> 0 <= B -> D <> 0 -> B - A = q * D ->
  Z.quot B D - Z.quot A D = q.
Proof.
  intros HA HB HD Heq.
  assert (Hpos : forall A B D q, 0 <= A -> 0 <= B -> 0 < D -> B - A = q * D ->
                                 Z.quot B D - Z.quot A D = q).
  { clear. intros A B D q HA HB HD Heq.
    rewrite !Z.quot_div_nonneg by lia.
    replace B with (A + q * D) by lia. rewrite Z.div_add by lia. lia. }
  destruct (Z_lt_le_dec 0 D) as [Hlt|Hle]; [apply Hpos; assumption|].
  replace D with (- - D) by lia. rewrite !(Z.quot_opp_r _ (- D)) by lia.
  specialize (Hpos A B (- D) (- q) HA HB ltac:(lia) ltac:(lia)). lia.
Qed.

End TwoPoints.

Lemma two_points_on_line (p0 p1 : Point) (a b : Z) :
  x p0 <> x p1 ->
  0 <= x p0 -> 0 <= x p1 -> 0 <= y p0 -> 0 <= y p1 ->
  on_poly [a; b] p0 -> on_poly [a; b] p1 ->
  performLagrangeInterpolation [p0; p1] = OK [a; b].
Proof.
  intros Hx Hx0 Hx1 Hy0 Hy1 H0 H1. unfold on_poly in H0, H1. cbn in H0, H1.
  rewrite performLagrangeInterpolation_closed.
  - unfold coefficientsClosed, selection_sum, termOf, basisClosed,
      numeratorOf, denominatorOf.
    cbn [length seq map selections fst snd fold_left fold_right
         lookup_total list_lookup_total].
    f_equal. f_equal; [|f_equal].
    + replace (y p0 * (1 * - x p1)) with (- (y p0 * x p1)) by lia.
      replace (y p1 * (1 * - x p0)) with (- (y p1 * x p0)) by lia.
      replace (1 * (x p1 - x p0)) with (- (1 * (x p0 - x p1))) by lia.
      rewrite Z.quot_opp_opp, Z.quot_opp_l by lia.
      pose proof (quot_difference (y p0 * x p1) (y p1 * x p0) (1 * (x p0 - x p1)) a
                    ltac:(nia) ltac:(nia) ltac:(lia) ltac:(nia)).
      lia.
    + replace (1 * (x p1 - x p0)) with (- (1 * (x p0 - x p1))) by lia.
      rewrite Z.quot_opp_r by lia.
      pose proof (quot_difference (y p1 * 1) (y p0 * 1) (1 * (x p0 - x p1)) b
                    ltac:(lia) ltac:(lia) ltac:(lia) ltac:(nia)).
      lia.
  - cbn [map]. apply NoDup_cons. split; [|apply NoDup_singleton].
    rewrite list_elem_of_singleton. exact Hx.
Qed.

(** X8. Two points with distinct, non-negative x-values and non-negative
    y-values that lie on a line with integer coefficients are
    interpolated exactly: the result is the line's constant term and
    slope. *)
Theorem interpolation_two_points_exact (p0 p1 : Point) (a b : Z) :
  x p0 <> x p1 ->
  0 <= x p0 -> 0 <= x p1 -> 0 <= y p0 -> 0 <= y p1 ->
  on_poly [a; b] p0 -> on_poly [a; b] p1 ->
  performLagrangeInterpolation [p0; p1] = OK [a; b].
Proof. exact (two_points_on_line p0 p1 a b). Qed.

Lemma interpolation_two_points_exact_witness :
  1 <> 3 /\ 0 <= 1 /\ 0 <= 3 /\ 0 <= 7 /\ 0 <= 3 /\
  on_poly [9; -2] (mkPoint 1 7) /\ on_poly [9; -2] (mkPoint 3 3) /\
  performLagrangeInterpolation [mkPoint 1 7; mkPoint 3 3] = OK [9; -2].
Proof.
  do 5 (split; [lia|]). split; [reflexivity|]. split; [reflexivity|].
  apply (interpolation_two_points_exact (mkPoint 1 7) (mkPoint 3 3) 9 (-2));
    cbn; try lia; reflexivity.
Defined.

(** X9. From three points on, with pairwise distinct x-values, the
    returned vector holds, at index 0, the sum over the points of the
    truncated quotients of [y] times the product of the other [-x] by
    the product of the differences of [x], and zero at every other
    index. *)
Theorem interpolation_three_or_more (dataPoints : list Point) :
  NoDup (map x dataPoints) -> (3 <= length dataPoints)%nat ->
  performLagrangeInterpolation dataPoints
  = OK (constantTerm dataPoints :: zeros (length dataPoints - 1)).
Proof.
  intros Hnd Hlen.
  destruct (higher_coefficients_vanish dataPoints Hnd Hlen) as [c0 Hc0].
  rewrite Hc0. f_equal. f_equal.
  rewrite (performLagrangeInterpolation_closed dataPoints Hnd) in Hc0.
  unfold coefficientsClosed in Hc0.
  destruct (length dataPoints) as [|[|[|n]]] eqn:Hn; try lia.
  cbn [seq map] in Hc0. injection Hc0 as Hhead _. rewrite <- Hhead.
  unfold constantTerm. apply selection_sum_ext. intros p o. reflexivity.
Qed.

Lemma interpolation_three_or_more_witness :
  NoDup (map x [mkPoint 1 1; mkPoint 2 1; mkPoint 4 1]) /\
  (3 <= length [mkPoint 1 1; mkPoint 2 1; mkPoint 4 1])%nat /\
  performLagrangeInterpolation [mkPoint 1 1; mkPoint 2 1; mkPoint 4 1]
  = OK (constantTerm [mkPoint 1 1; mkPoint 2 1; mkPoint 4 1] :: zeros (3 - 1)).
Proof.
  assert (Hnd : NoDup (map x [mkPoint 1 1; mkPoint 2 1; mkPoint 4 1])).
  { apply (bool_decide_unpack _). vm_compute. exact I. }
  split; [exact Hnd|]. split; [cbn; lia|].
  apply (interpolation_three_or_more [mkPoint 1 1; mkPoint 2 1; mkPoint 4 1] Hnd).
  cbn. lia.
Defined.

(* ===================================================================== *)
(** ** Further properties of the recovery *)
(* ===================================================================== *)

Section TallyCounts.

Lemma total_count_increment (m : SecretMap) (c : Z) :
  total_count (increment m c) = S (total_count m).
Proof.
  unfold increment, total_count.
  induction m as [|[k' v'] m IH]; [reflexivity|].
  cbn [map_get map_set]. destruct (k' =? c).
  - cbn [map snd fold_right default]. unfold id. lia.
  - cbn [map snd fold_right]. rewrite IH. cbn [map snd fold_right]. lia.
Qed.

Lemma total_count_fold (cs : list Z) :
  forall m : SecretMap,
    total_count (fold_left increment cs m) = (total_count m + length cs)%nat.
Proof.
  induction cs as [|c cs IH]; intros m; cbn [fold_left length]; [lia|].
  rewrite IH, total_count_increment. lia.
Qed.

Lemma choose_pos (n : nat) : forall k, (k <= n)%nat -> (1 <= choose n k)%nat.
Proof.
  induction n as [|n IH]; intros [|k] Hk; cbn [choose]; try lia.
  specialize (IH k ltac:(lia)). lia.
Qed.

Lemma sublists_members {A} (l : list A) :
  forall (m : nat) (c : list A),
    In c (sublists m l) -> length c = m /\ (forall a, In a c -> In a l).
Proof.
  induction l as [|a l IH]; intros [|m] c Hc; cbn [sublists] in Hc.
  - destruct Hc as [<-|[]]. split; [reflexivity | intros ? []].
  - destruct Hc.
  - destruct Hc as [<-|[]]. split; [reflexivity | intros ? []].
  - apply in_app_or in Hc as [Hc|Hc].
    + apply in_map_iff in Hc as (c' & <- & Hc'). apply IH in Hc' as [Hlen Hin].
      split; [cbn [length]; lia|]. intros b [<-|Hb]; [left; reflexivity|].
      right. apply Hin, Hb.
    + apply IH in Hc as [Hlen Hin]. split; [exact Hlen|].
      intros b Hb. right. apply Hin, Hb.
Qed.

Lemma sublists_distinct (l : list Point) :
  NoDup (map x l) ->
  forall (m : nat) (c : list Point), In c (sublists m l) -> NoDup (map x c).
Proof.
  induction l as [|a l IH]; intros Hnd [|m] c Hc; cbn [sublists] in Hc.
  - destruct Hc as [<-|[]]. constructor.
  - destruct Hc.
  - destruct Hc as [<-|[]]. constructor.
  - cbn [map] in Hnd. apply NoDup_cons in Hnd as [Ha Hnd].
    apply in_app_or in Hc as [Hc|Hc]; [|apply (IH Hnd _ _ Hc)].
    apply in_map_iff in Hc as (c' & <- & Hc'). cbn [map]. apply NoDup_cons.
    split; [|apply (IH Hnd _ _ Hc')].
    intros Hin%list_elem_of_In. apply Ha, list_elem_of_In.
    apply in_map_iff in Hin as (q & Hq & Hin). rewrite <- Hq.
    apply in_map. apply (sublists_members l m c' Hc'). exact Hin.
Qed.

Lemma candidate_distinct (comb : list Point) :
  NoDup (map x comb) -> comb <> [] ->
  exists c0 rest, performLagrangeInterpolation comb = OK (c0 :: rest) /\
                  candidate comb = Some c0.
Proof.
  intros Hnd Hne. unfold candidate.
  rewrite (performLagrangeInterpolation_closed comb Hnd).
  unfold coefficientsClosed. destruct comb as [|p comb]; [congruence|].
  cbn [length seq map]. eexists _, _. split; reflexivity.
Qed.

Lemma candidates_all (combs : list (list Point)) :
  Forall (fun comb => exists c0, candidate comb = Some c0) combs ->
  length (candidates combs) = length combs.
Proof.
  induction 1 as [|comb combs [c0 Hc0] _ IH]; [reflexivity|].
  cbn [candidates]. rewrite Hc0. cbn [length]. rewrite IH. reflexivity.
Qed.

(** With distinct abscissas every combination of at least one point
    yields a candidate. *)
Lemma candidates_distinct (allRoots : list Point) (m : nat) :
  NoDup (map x allRoots) ->
  length (candidates (sublists (S m) allRoots)) = choose (length allRoots) (S m).
Proof.
  intros Hnd. rewrite candidates_all; [apply sublists_length|].
  apply List.Forall_forall. intros comb Hcomb.
  destruct (candidate_distinct comb) as (c0 & _ & _ & Hc0).
  - exact (sublists_distinct allRoots Hnd _ _ Hcomb).
  - apply sublists_members in Hcomb as [Hlen _]. destruct comb; [discriminate | congruence].
  - exists c0. exact Hc0.
Qed.

Lemma tally_keys (combs : list (list Point)) :
  map fst (tally combs) = first_seen (candidates combs).
Proof.
  rewrite tally_entries. unfold entries. rewrite map_map. apply map_id.
Qed.

Lemma tally_total (combs : list (list Point)) :
  total_count (tally combs) = length (candidates combs).
Proof. unfold tally. rewrite tally_from, total_count_fold. reflexivity. Qed.

End TallyCounts.

(** X10. The tally built from any list of combinations has pairwise
    distinct keys and counts of at least one, and its counts add up to
    the number of combinations whose interpolation gave a constant term,
    which is at most the number of combinations. *)
Theorem tally_invariants (allCombinations : list (list Point)) :
  List.NoDup (map fst (tally allCombinations)) /\
  Forall (fun e => (1 <= e.2)%nat) (tally allCombinations) /\
  total_count (tally allCombinations)
  = length (List.filter
              (fun comb => match candidate comb with Some _ => true | None => false end)
              allCombinations) /\
  (total_count (tally allCombinations) <= length allCombinations)%nat.
Proof.
  split; [rewrite tally_keys; apply first_seen_NoDup|]. split; [|split].
  - rewrite tally_entries. unfold entries. apply List.Forall_map.
    apply List.Forall_forall. intros c Hc. cbn [snd].
    apply occurrences_pos, first_seen_elem, Hc.
  - rewrite tally_total.
    induction allCombinations as [|comb combs IH]; [reflexivity|].
    cbn [candidates List.filter].
    destruct (candidate comb) as [c|]; [cbn [length]; f_equal|]; exact IH.
  - rewrite tally_total. apply candidates_length.
Qed.

Section RecoveryOutcome.

Lemma findSecret_is_OK (allRoots : list Point) (k : Z) :
  is_OK (findSecretWithMinimumRoots allRoots k) = true
  <-> candidates (backtrack k allRoots []) <> [].
Proof.
  rewrite findSecret_unfold. cbn zeta. rewrite <- entries_nil.
  destruct (entries (candidates (backtrack k allRoots []))); split;
    intros H; try reflexivity; try discriminate; congruence.
Qed.

Lemma backtrack_sublists_pos (allRoots : list Point) (k : Z) :
  0 <= k -> backtrack k allRoots [] = sublists (Z.to_nat k) allRoots.
Proof.
  intros Hk. apply backtrack_of_generate, generateCombinations_sublists, Hk.
Qed.

Lemma sublists_all {A} (l : list A) : sublists (length l) l = [l].
Proof.
  induction l as [|a l IH]; [reflexivity|].
  cbn [length sublists]. rewrite IH, sublists_too_many by lia. reflexivity.
Qed.

Lemma sublists_one {A} (l : list A) : sublists 1 l = map (fun a => [a]) l.
Proof.
  induction l as [|a l IH]; [reflexivity|].
  cbn [sublists map app]. rewrite IH. destruct l; reflexivity.
Qed.

Lemma performLagrangeInterpolation_one (p : Point) :
  performLagrangeInterpolation [p] = OK [y p].
Proof.
  unfold performLagrangeInterpolation. cbn [length seq foldM].
  unfold pointStep, basisOf. cbn [seq fold_left basisStep Nat.eqb foldM zeros replicate].
  cbn [insert list_insert]. unfold addContribution, bigint_div.
  cbn [Z.eqb mbind result_bind lookup_total list_lookup_total insert list_insert].
  rewrite Z.mul_1_r, Z.quot_1_r. reflexivity.
Qed.

Lemma candidates_one (l : list Point) :
  candidates (map (fun p => [p]) l) = map y l.
Proof.
  induction l as [|p l IH]; [reflexivity|].
  cbn [map candidates]. unfold candidate.
  rewrite performLagrangeInterpolation_one, IH. reflexivity.
Qed.

Lemma candidates_out_of_range (allRoots : list Point) (k : Z) :
  k > Z.of_nat (length allRoots) \/ k < 1 ->
  candidates (backtrack k allRoots []) = [].
Proof.
  intros Hk. destruct (Z_lt_le_dec k 0) as [Hneg|Hpos].
  - rewrite backtrack_over by (cbn [length]; lia). reflexivity.
  - rewrite backtrack_sublists_pos by lia.
    destruct (Z.eq_dec k 0) as [->|Hne].
    + destruct allRoots; reflexivity.
    + rewrite sublists_too_many by lia. reflexivity.
Qed.

End RecoveryOutcome.

Lemma findSecret_distinct_OK (allRoots : list Point) (k : Z) :
  NoDup (map x allRoots) ->
  is_OK (findSecretWithMinimumRoots allRoots k) = true
  <-> 1 <= k <= Z.of_nat (length allRoots).
Proof.
  intros Hnd. rewrite findSecret_is_OK. split.
  - intros Hne. destruct (Z_lt_le_dec k 1) as [Hlt|Hge].
    + exfalso. apply Hne, candidates_out_of_range. right. exact Hlt.
    + split; [exact Hge|]. destruct (Z_lt_le_dec (Z.of_nat (length allRoots)) k)
        as [Hgt|Hle]; [|exact Hle].
      exfalso. apply Hne, candidates_out_of_range. left. lia.
  - intros [H1 Hn] Hnil. rewrite backtrack_sublists_pos in Hnil by lia.
    pose proof (candidates_distinct allRoots (Z.to_nat k - 1) Hnd) as Hlen.
    replace (S (Z.to_nat k - 1)) with (Z.to_nat k) in Hlen by lia.
    rewrite Hnil in Hlen. cbn [length] in Hlen.
    pose proof (choose_pos (length allRoots) (Z.to_nat k) ltac:(lia)). lia.
Qed.

(** X11. For points with pairwise distinct x-values the recovery
    succeeds exactly when [1 <= k <= n]; every subset then yields a
    candidate, so the counts of the tally add up to [C(n,k)], which is
    also the returned [totalCombinations]. *)
Theorem recovery_distinct_abscissas (allRoots : list Point) (k : Z) :
  NoDup (map x allRoots) ->
  (is_OK (findSecretWithMinimumRoots allRoots k) = true
   <-> 1 <= k <= Z.of_nat (length allRoots)) /\
  (forall r, findSecretWithMinimumRoots allRoots k = OK r ->
     exists combs,
       generateCombinations allRoots k = OK combs /\
       total_count (tally combs) = choose (length allRoots) (Z.to_nat k) /\
       totalCombinations r = choose (length allRoots) (Z.to_nat k)).
Proof.
  intros Hnd. split; [exact (findSecret_distinct_OK allRoots k Hnd)|].
  intros r Hr. exists (backtrack k allRoots []). split; [reflexivity|].
  assert (Hk : 1 <= k <= Z.of_nat (length allRoots))
    by (apply (findSecret_distinct_OK allRoots k Hnd); rewrite Hr; reflexivity).
  split.
  - rewrite tally_total, backtrack_sublists_pos by lia.
    pose proof (candidates_distinct allRoots (Z.to_nat k - 1) Hnd) as Hlen.
    replace (S (Z.to_nat k - 1)) with (Z.to_nat k) in Hlen by lia. exact Hlen.
  - apply findSecret_OK in Hr as [Htot _]. rewrite Htot.
    rewrite backtrack_sublists_pos by lia. apply sublists_length.
Qed.

Lemma recovery_distinct_abscissas_witness :
  NoDup (map x [mkPoint 1 5; mkPoint 2 7; mkPoint 3 9]) /\
  (is_OK (findSecretWithMinimumRoots [mkPoint 1 5; mkPoint 2 7; mkPoint 3 9] 2) = true
   <-> 1 <= 2 <= Z.of_nat (length [mkPoint 1 5; mkPoint 2 7; mkPoint 3 9])) /\
  (forall r,
     findSecretWithMinimumRoots [mkPoint 1 5; mkPoint 2 7; mkPoint 3 9] 2 = OK r ->
     exists combs,
       generateCombinations [mkPoint 1 5; mkPoint 2 7; mkPoint 3 9] 2 = OK combs /\
       total_count (tally combs) = choose 3 (Z.to_nat 2) /\
       totalCombinations r = choose 3 (Z.to_nat 2)).
Proof.
  assert (Hnd : NoDup (map x [mkPoint 1 5; mkPoint 2 7; mkPoint 3 9])).
  { apply (bool_decide_unpack _). vm_compute. exact I. }
  split; [exact Hnd|].
  exact (recovery_distinct_abscissas [mkPoint 1 5; mkPoint 2 7; mkPoint 3 9] 2 Hnd).
Defined.

Section Thresholds.

Lemma entries_single (c : Z) : entries [c] = [(c, 1%nat)].
Proof.
  unfold entries, first_seen. cbn [fold_left]. unfold see. cbn [in_dec list_rec list_rect].
  cbn [app map occurrences]. rewrite Z.eqb_refl. reflexivity.
Qed.

Lemma occurrences_all (a : Z) (cs : list Z) :
  Forall (fun c => c = a) cs -> occurrences a cs = length cs.
Proof.
  induction 1 as [|c cs -> _ IH]; [reflexivity|].
  cbn [occurrences length]. rewrite Z.eqb_refl, IH. reflexivity.
Qed.

Lemma candidates_constant (a : Z) (combs : list (list Point)) :
  Forall (fun comb => candidate comb = Some a) combs ->
  Forall (fun c => c = a) (candidates combs) /\
  length (candidates combs) = length combs.
Proof.
  induction 1 as [|comb combs Hc _ [IH1 IH2]]; [split; [constructor | reflexivity]|].
  cbn [candidates]. rewrite Hc. split; [constructor; [reflexivity | exact IH1]|].
  cbn [length]. rewrite IH2. reflexivity.
Qed.

(** When every combination yields the same candidate, that candidate is
    returned with the number of combinations as its frequency. *)
Lemma findSecret_unanimous (allRoots : list Point) (k a : Z) :
  backtrack k allRoots [] <> [] ->
  Forall (fun comb => candidate comb = Some a) (backtrack k allRoots []) ->
  findSecretWithMinimumRoots allRoots k
  = OK (mkResult a (Some (length (backtrack k allRoots [])))
                 (length (backtrack k allRoots []))).
Proof.
  intros Hne Hall. apply candidates_constant in Hall as [Hall Hlen].
  destruct (findSecretWithMinimumRoots allRoots k) as [r|e] eqn:Hr.
  - apply findSecret_OK in Hr. cbn zeta in Hr.
    destruct Hr as (Htot & Hfreq & k1 & k2 & Hkeys & _).
    assert (Hs : secret r = a).
    { rewrite List.Forall_forall in Hall. apply Hall, first_seen_elem.
      rewrite Hkeys. apply in_or_app. right. left. reflexivity. }
    rewrite Hs, (occurrences_all a _ Hall), Hlen in Hfreq.
    destruct r as [s f t]. cbn [secret frequency totalCombinations] in *.
    subst. reflexivity.
  - exfalso. assert (His : is_OK (findSecretWithMinimumRoots allRoots k) = true).
    { apply findSecret_is_OK. intros Hnil. rewrite Hnil in Hlen.
      destruct (backtrack k allRoots []); [congruence | discriminate]. }
    rewrite Hr in His. discriminate.
Qed.

End Thresholds.

(** X12. With [k] equal to the number of points (at least one, with
    pairwise distinct x-values) there is one subset, the list itself:
    the recovery returns the constant term computed from all points with
    frequency 1 out of 1. *)
Theorem recovery_all_points (allRoots : list Point) :
  allRoots <> [] -> NoDup (map x allRoots) ->
  exists c0 rest,
    performLagrangeInterpolation allRoots = OK (c0 :: rest) /\
    findSecretWithMinimumRoots allRoots (Z.of_nat (length allRoots))
    = OK (mkResult c0 (Some 1%nat) 1).
Proof.
  intros Hne Hnd.
  destruct (candidate_distinct allRoots Hnd Hne) as (c0 & rest & Hperf & Hcand).
  exists c0, rest. split; [exact Hperf|].
  assert (Hcombs : backtrack (Z.of_nat (length allRoots)) allRoots [] = [allRoots]).
  { rewrite backtrack_sublists_pos by lia. rewrite Nat2Z.id. apply sublists_all. }
  rewrite (findSecret_unanimous allRoots _ c0); rewrite Hcombs.
  - reflexivity.
  - discriminate.
  - constructor; [exact Hcand | constructor].
Qed.

Lemma recovery_all_points_witness :
  [mkPoint 1 5; mkPoint 2 7] <> [] /\
  NoDup (map x [mkPoint 1 5; mkPoint 2 7]) /\
  exists c0 rest,
    performLagrangeInterpolation [mkPoint 1 5; mkPoint 2 7] = OK (c0 :: rest) /\
    findSecretWithMinimumRoots [mkPoint 1 5; mkPoint 2 7]
      (Z.of_nat (length [mkPoint 1 5; mkPoint 2 7]))
    = OK (mkResult c0 (Some 1%nat) 1).
Proof.
  assert (Hnd : NoDup (map x [mkPoint 1 5; mkPoint 2 7])).
  { apply (bool_decide_unpack _). vm_compute. exact I. }
  split; [discriminate|]. split; [exact Hnd|].
  apply (recovery_all_points [mkPoint 1 5; mkPoint 2 7]); [discriminate | exact Hnd].
Defined.

(** X13. With [k = 1] every point is a subset of its own and its
    candidate is its y-value: the recovery returns a most frequent
    y-value, with its number of occurrences among the points as
    frequency and the number of points as [totalCombinations]. *)
Theorem recovery_threshold_one (allRoots : list Point) (r : RecoveryResult) :
  findSecretWithMinimumRoots allRoots 1 = OK r ->
  In (secret r) (map y allRoots) /\
  frequency r = Some (occurrences (secret r) (map y allRoots)) /\
  (forall p, In p allRoots ->
     (occurrences (y p) (map y allRoots)
      <= occurrences (secret r) (map y allRoots))%nat) /\
  totalCombinations r = length allRoots.
Proof.
  intros Hr. apply findSecret_OK in Hr. cbn zeta in Hr.
  rewrite backtrack_sublists_pos in Hr by lia.
  change (Z.to_nat 1) with 1%nat in Hr.
  rewrite sublists_one, candidates_one, length_map in Hr.
  destruct Hr as (Htot & Hfreq & k1 & k2 & Hkeys & Hk1 & Hk2).
  assert (Hin : In (secret r) (first_seen (map y allRoots)))
    by (rewrite Hkeys; apply in_or_app; right; left; reflexivity).
  split; [apply first_seen_elem, Hin|]. split; [exact Hfreq|].
  split; [|exact Htot].
  intros p Hp.
  assert (Hyp : In (y p) (first_seen (map y allRoots)))
    by (apply first_seen_elem, in_map, Hp).
  rewrite Hkeys in Hyp. apply in_app_or in Hyp as [Hyp|[<-|Hyp]].
  - apply Nat.lt_le_incl, Hk1, Hyp.
  - reflexivity.
  - apply Hk2, Hyp.
Qed.

Lemma recovery_threshold_one_witness :
  findSecretWithMinimumRoots [mkPoint 1 5; mkPoint 2 7; mkPoint 3 7] 1
  = OK (mkResult 7 (Some 2%nat) 3) /\
  In 7 (map y [mkPoint 1 5; mkPoint 2 7; mkPoint 3 7]) /\
  Some 2%nat = Some (occurrences 7 (map y [mkPoint 1 5; mkPoint 2 7; mkPoint 3 7])) /\
  (forall p, In p [mkPoint 1 5; mkPoint 2 7; mkPoint 3 7] ->
     (occurrences (y p) (map y [mkPoint 1 5; mkPoint 2 7; mkPoint 3 7])
      <= occurrences 7 (map y [mkPoint 1 5; mkPoint 2 7; mkPoint 3 7]))%nat) /\
  3%nat = length [mkPoint 1 5; mkPoint 2 7; mkPoint 3 7].
Proof.
  split; [reflexivity|].
  apply (recovery_threshold_one [mkPoint 1 5; mkPoint 2 7; mkPoint 3 7]
           (mkResult 7 (Some 2%nat) 3)).
  reflexivity.
Defined.

Lemma sublists_two_distinct (allRoots comb : list Point) (P : Point -> Prop) :
  NoDup (map x allRoots) -> Forall P allRoots ->
  In comb (sublists 2 allRoots) ->
  exists p0 p1, comb = [p0; p1] /\ x p0 <> x p1 /\ P p0 /\ P p1.
Proof.
  intros Hnd HP Hin.
  pose proof (sublists_distinct allRoots Hnd 2 comb Hin) as Hd.
  apply sublists_members in Hin as [Hlen Hmem].
  destruct comb as [|p0 [|p1 [|? ?]]]; try discriminate.
  exists p0, p1. rewrite List.Forall_forall in HP.
  split; [reflexivity|]. split; [|split; apply HP, Hmem; cbn; auto].
  cbn [map] in Hd. apply NoDup_cons in Hd as [Hd _].
  intros Heq. apply Hd. rewrite Heq. left.
Qed.

Lemma findSecret_on_line (allRoots : list Point) (a b : Z) :
  NoDup (map x allRoots) ->
  Forall (fun p => 0 <= x p /\ 0 <= y p /\ on_poly [a; b] p) allRoots ->
  (2 <= length allRoots)%nat ->
  findSecretWithMinimumRoots allRoots 2
  = OK (mkResult a (Some (choose (length allRoots) 2)) (choose (length allRoots) 2)).
Proof.
  intros Hnd Hall Hlen.
  assert (Hcombs : backtrack 2 allRoots [] = sublists 2 allRoots)
    by (apply backtrack_sublists_pos; lia).
  rewrite (findSecret_unanimous allRoots 2 a); rewrite Hcombs.
  - rewrite sublists_length. reflexivity.
  - intros Hnil. pose proof (sublists_length allRoots 2) as Hl.
    rewrite Hnil in Hl. cbn [length] in Hl.
    pose proof (choose_pos (length allRoots) 2 Hlen). lia.
  - apply List.Forall_forall. intros comb Hcomb.
    destruct (sublists_two_distinct allRoots comb _ Hnd Hall Hcomb)
      as (p0 & p1 & -> & Hx & (Hx0 & Hy0 & Hp0) & (Hx1 & Hy1 & Hp1)).
    unfold candidate.
    rewrite (two_points_on_line p0 p1 a b Hx Hx0 Hx1 Hy0 Hy1 Hp0 Hp1). reflexivity.
Qed.

(** X14. With [k = 2], when the points (at least two, with pairwise
    distinct non-negative x-values and non-negative y-values) all lie on
    one line with integer coefficients, every pair yields the line's
    constant term: it is returned with frequency equal to
    [totalCombinations], which is [C(n,2)]. *)
Theorem recovery_threshold_two (allRoots : list Point) (a b : Z) :
  NoDup (map x allRoots) ->
  Forall (fun p => 0 <= x p /\ 0 <= y p /\ on_poly [a; b] p) allRoots ->
  (2 <= length allRoots)%nat ->
  findSecretWithMinimumRoots allRoots 2
  = OK (mkResult a (Some (choose (length allRoots) 2)) (choose (length allRoots) 2)).
Proof. exact (findSecret_on_line allRoots a b). Qed.

Lemma recovery_threshold_two_witness :
  NoDup (map x [mkPoint 1 7; mkPoint 2 5; mkPoint 4 1]) /\
  Forall (fun p => 0 <= x p /\ 0 <= y p /\ on_poly [9; -2] p)
         [mkPoint 1 7; mkPoint 2 5; mkPoint 4 1] /\
  (2 <= length [mkPoint 1 7; mkPoint 2 5; mkPoint 4 1])%nat /\
  findSecretWithMinimumRoots [mkPoint 1 7; mkPoint 2 5; mkPoint 4 1] 2
  = OK (mkResult 9 (Some (choose 3 2)) (choose 3 2)).
Proof.
  assert (Hnd : NoDup (map x [mkPoint 1 7; mkPoint 2 5; mkPoint 4 1])).
  { apply (bool_decide_unpack _). vm_compute. exact I. }
  assert (Hall : Forall (fun p => 0 <= x p /\ 0 <= y p /\ on_poly [9; -2] p)
                        [mkPoint 1 7; mkPoint 2 5; mkPoint 4 1]).
  { repeat constructor; cbn; lia. }
  split; [exact Hnd|]. split; [exact Hall|]. split; [cbn; lia|].
  apply (recovery_threshold_two [mkPoint 1 7; mkPoint 2 5; mkPoint 4 1] 9 (-2) Hnd Hall).
  cbn. lia.
Defined.

(* ===================================================================== *)
(** ** Properties of the processing of a test case *)
(* ===================================================================== *)

Section DecodeRoots.

Variable rootData : gmap string TestCase.Share.

Lemma decodeStep_cons (s len : nat) (acc : list Point) :
  foldM (TestCase.decodeStep rootData) (seq s (S len)) acc
  = match rootData !! pretty s with
    | Some root =>
        match decodeFromBase (TestCase.value root) (TestCase.base root) with
        | OK yv => foldM (TestCase.decodeStep rootData) (seq (S s) len)
                         (acc ++ [mkPoint (Z.of_nat s) yv])
        | Throw e => Throw e
        end
    | None => foldM (TestCase.decodeStep rootData) (seq (S s) len) acc
    end.
Proof.
  cbn [seq foldM].
  generalize (foldM (TestCase.decodeStep rootData) (seq (S s) len)). intros F.
  unfold TestCase.decodeStep. destruct (rootData !! pretty s) as [root|]; [|reflexivity].
  destruct (decodeFromBase (TestCase.value root) (TestCase.base root)); reflexivity.
Qed.

Lemma decodeStep_loop (len : nat) :
  forall (s : nat) (acc pts : list Point),
    foldM (TestCase.decodeStep rootData) (seq s len) acc = OK pts ->
    exists new,
      pts = acc ++ new /\
      StronglySorted Z.lt (map x new) /\
      Forall (TestCase.decoded_root rootData (Z.of_nat s) (Z.of_nat (s + len) - 1)) new /\
      length new
      = length (omap (fun i => option_map (pair i) (rootData !! pretty i)) (seq s len)).
Proof.
  induction len as [|len IH]; intros s acc pts Hpts.
  - cbn in Hpts. injection Hpts as <-. exists []. rewrite app_nil_r.
    repeat split; constructor.
  - rewrite decodeStep_cons in Hpts.
    cbn [seq omap list_omap].
    destruct (rootData !! pretty s) as [root|] eqn:Hroot; cbn [option_map].
    + destruct (decodeFromBase (TestCase.value root) (TestCase.base root))
        as [yv|e] eqn:Hdec; [|discriminate].
      apply IH in Hpts as (new & -> & Hsorted & Hall & Hlen).
      exists (mkPoint (Z.of_nat s) yv :: new).
      split; [rewrite <- app_assoc; reflexivity|]. split; [|split].
      * cbn [map x]. constructor; [exact Hsorted|].
        apply List.Forall_map. eapply List.Forall_impl; [|exact Hall].
        intros p [Hp _]. lia.
      * constructor.
        -- unfold TestCase.decoded_root. cbn [x y]. split; [lia|].
           split; [apply (decodeFromBase_range _ _ _ Hdec)|].
           exists root. rewrite Nat2Z.id. split; assumption.
        -- eapply List.Forall_impl; [|exact Hall].
           intros p (Hp & Hy & Hr). split; [lia|]. split; assumption.
      * cbn [length]. rewrite Hlen. reflexivity.
    + apply IH in Hpts as (new & -> & Hsorted & Hall & Hlen).
      exists new. split; [reflexivity|]. split; [exact Hsorted|]. split; [|exact Hlen].
      eapply List.Forall_impl; [|exact Hall].
      intros p (Hp & Hy & Hr). split; [lia|]. split; assumption.
Qed.

Lemma decodeStep_loop_OK (len : nat) :
  forall (s : nat) (acc : list Point),
    is_OK (foldM (TestCase.decodeStep rootData) (seq s len) acc)
    = forallb (fun e => is_OK (decodeFromBase (TestCase.value e.2) (TestCase.base e.2)))
        (omap (fun i => option_map (pair i) (rootData !! pretty i)) (seq s len)).
Proof.
  induction len as [|len IH]; intros s acc; [reflexivity|].
  rewrite decodeStep_cons. cbn [seq omap list_omap].
  destruct (rootData !! pretty s) as [root|]; cbn [option_map].
  - cbn [forallb snd].
    destruct (decodeFromBase (TestCase.value root) (TestCase.base root)) as [yv|e];
      cbn [is_OK andb]; [apply IH | reflexivity].
  - apply IH.
Qed.

Lemma decodeStep_loop_error (len : nat) :
  forall (s : nat) (acc : list Point) (e : exn),
    foldM (TestCase.decodeStep rootData) (seq s len) acc = Throw e ->
    e = InvalidDigit \/ e = SyntaxError.
Proof.
  induction len as [|len IH]; intros s acc e He; [discriminate|].
  rewrite decodeStep_cons in He.
  destruct (rootData !! pretty s) as [root|].
  - destruct (decodeFromBase (TestCase.value root) (TestCase.base root))
      as [yv|e'] eqn:Hdec; [exact (IH _ _ _ He)|].
    injection He as <-.
    destruct (Z.eq_dec (TestCase.base root) 16) as [Hb|Hb].
    + right. rewrite Hb, decode_base_16 in Hdec.
      destruct (nonempty_digits 16 _); [discriminate|]. congruence.
    + left. rewrite decodeFromBase_loop in Hdec by exact Hb.
      destruct (digits_MV _ _ _); [discriminate|]. congruence.
  - exact (IH _ _ _ He).
Qed.

End DecodeRoots.

Lemma StronglySorted_lt_NoDup (l : list Z) : StronglySorted Z.lt l -> NoDup l.
Proof.
  induction 1 as [|a l _ IH Hall]; constructor; [|exact IH].
  intros Hin. rewrite List.Forall_forall in Hall.
  apply list_elem_of_In in Hin. specialize (Hall a Hin). lia.
Qed.

Lemma decodeRoots_spec (n : Z) (rootData : gmap string TestCase.Share)
    (pts : list Point) :
  TestCase.decodeRoots n rootData = OK pts ->
  StronglySorted Z.lt (map x pts) /\
  Forall (TestCase.decoded_root rootData 1 n) pts /\
  length pts = length (TestCase.presentRoots n rootData).
Proof.
  unfold TestCase.decodeRoots, TestCase.presentRoots. intros Hpts.
  apply decodeStep_loop in Hpts as (new & -> & Hsorted & Hall & Hlen).
  cbn [app]. split; [exact Hsorted|]. split; [|exact Hlen].
  destruct (Z_lt_le_dec n 0) as [Hneg|Hpos].
  - replace (Z.to_nat n) with 0%nat in Hlen by lia. cbn in Hlen.
    destruct new; [constructor | discriminate].
  - eapply List.Forall_impl; [|exact Hall].
    intros p (Hp & Hy & Hr). split; [lia|]. split; assumption.
Qed.

(** X15. The decoded roots come out with strictly increasing x-values
    between 1 and [n], hence pairwise distinct, and with non-negative
    y-values; there is one for each root present under the names "1" to
    "n", and its y-value is the decoded value of the root named by its
    x-value. *)
Theorem decodeRoots_increasing (n : Z) (rootData : gmap string TestCase.Share)
    (pts : list Point) :
  TestCase.decodeRoots n rootData = OK pts ->
  StronglySorted Z.lt (map x pts) /\
  Forall (TestCase.decoded_root rootData 1 n) pts /\
  length pts = length (TestCase.presentRoots n rootData).
Proof. exact (decodeRoots_spec n rootData pts). Qed.

Lemma decodeRoots_increasing_witness :
  TestCase.decodeRoots 3
    (<["1" := TestCase.mkShare 16 "ab"]> (<["3" := TestCase.mkShare 16 "2c"]> ∅))
  = OK [mkPoint 1 171; mkPoint 3 44] /\
  StronglySorted Z.lt (map x [mkPoint 1 171; mkPoint 3 44]) /\
  Forall (TestCase.decoded_root
            (<["1" := TestCase.mkShare 16 "ab"]> (<["3" := TestCase.mkShare 16 "2c"]> ∅))
            1 3)
         [mkPoint 1 171; mkPoint 3 44] /\
  length [mkPoint 1 171; mkPoint 3 44]
  = length (TestCase.presentRoots 3
      (<["1" := TestCase.mkShare 16 "ab"]> (<["3" := TestCase.mkShare 16 "2c"]> ∅))).
Proof.
  assert (Hdec : TestCase.decodeRoots 3
      (<["1" := TestCase.mkShare 16 "ab"]> (<["3" := TestCase.mkShare 16 "2c"]> ∅))
      = OK [mkPoint 1 171; mkPoint 3 44]) by (vm_compute; reflexivity).
  split; [exact Hdec|].
  exact (decodeRoots_increasing 3 _ _ Hdec).
Defined.

(** X16. A test case succeeds exactly when every root present under the
    names "1" to "n" decodes and [k] lies between 1 and the number of
    these roots. When it fails, the error is one of the decoder
    (invalid digit, or the syntax error of BigInt for base 16) or the
    "no valid secrets" error; one root that does not decode fails the
    whole test case. *)
Theorem processTestCase_succeeds_iff (inputData : TestCase.InputData) :
  (is_OK (TestCase.processTestCase inputData) = true
   <-> forallb (fun e => is_OK (decodeFromBase (TestCase.value e.2) (TestCase.base e.2)))
         (TestCase.presentRoots (TestCase.n inputData) (TestCase.rootData inputData))
       = true /\
       1 <= TestCase.k inputData
         <= Z.of_nat (length (TestCase.presentRoots (TestCase.n inputData)
                                                    (TestCase.rootData inputData)))) /\
  (forall e, TestCase.processTestCase inputData = Throw e ->
             e = InvalidDigit \/ e = SyntaxError \/ e = NoValidCandidates).
Proof.
  destruct inputData as [n k rd]. unfold TestCase.processTestCase.
  cbn [TestCase.n TestCase.k TestCase.rootData].
  pose proof (decodeStep_loop_OK rd (Z.to_nat n) 1 []) as HOK.
  fold (TestCase.decodeRoots n rd) in HOK. fold (TestCase.presentRoots n rd) in HOK.
  destruct (TestCase.decodeRoots n rd) as [pts|e0] eqn:Hdec.
  - cbn [mbind result_bind is_OK] in *. rewrite <- HOK.
    apply decodeRoots_spec in Hdec as (Hsorted & _ & Hlen). rewrite <- Hlen.
    pose proof (findSecret_distinct_OK pts k (StronglySorted_lt_NoDup _ Hsorted)) as Hiff.
    destruct (findSecretWithMinimumRoots pts k) as [r|e] eqn:Hr;
      cbn [mbind result_bind is_OK] in *.
    + split; [|discriminate]. split; [intros _; split; [reflexivity | tauto] | reflexivity].
    + split.
      * split; [discriminate|]. intros [_ Hk]. apply Hiff. exact Hk.
      * intros e' [= <-]. right. right.
        rewrite findSecret_unfold in Hr. cbn zeta in Hr.
        destruct (entries _); [|discriminate]. congruence.
  - cbn [mbind result_bind is_OK] in *. rewrite <- HOK. split.
    + split; [discriminate | intros [H _]; discriminate].
    + intros e [= <-].
      destruct (decodeStep_loop_error rd (Z.to_nat n) 1 [] e0 Hdec) as [->| ->]; auto.
Qed.

(** X17. For a test case with [k = 2] whose roots all decode, to at
    least two points that lie on one line with integer coefficients, the
    returned secret is the constant term of that line. *)
Theorem processTestCase_threshold_two
    (inputData : TestCase.InputData) (pts : list Point) (a b : Z) :
  TestCase.k inputData = 2 ->
  TestCase.decodeRoots (TestCase.n inputData) (TestCase.rootData inputData) = OK pts ->
  (2 <= length pts)%nat ->
  Forall (on_poly [a; b]) pts ->
  TestCase.processTestCase inputData = OK a.
Proof.
  intros Hk Hdec Hlen Hline. unfold TestCase.processTestCase.
  rewrite Hdec, Hk. cbn [mbind result_bind].
  apply decodeRoots_spec in Hdec as (Hsorted & Hall & _).
  rewrite (findSecret_on_line pts a b).
  - reflexivity.
  - apply StronglySorted_lt_NoDup, Hsorted.
  - apply List.Forall_forall. intros p Hp.
    rewrite List.Forall_forall in Hall, Hline.
    destruct (Hall p Hp) as (Hx & Hy & _).
    split; [lia|]. split; [exact Hy | exact (Hline p Hp)].
  - exact Hlen.
Qed.

Lemma processTestCase_threshold_two_witness :
  TestCase.k (TestCase.mkInput 3 2
    (<["1" := TestCase.mkShare 10 "7"]> (<["2" := TestCase.mkShare 2 "101"]>
      (<["3" := TestCase.mkShare 16 "3"]> ∅)))) = 2 /\
  TestCase.decodeRoots 3
    (<["1" := TestCase.mkShare 10 "7"]> (<["2" := TestCase.mkShare 2 "101"]>
      (<["3" := TestCase.mkShare 16 "3"]> ∅)))
  = OK [mkPoint 1 7; mkPoint 2 5; mkPoint 3 3] /\
  (2 <= length [mkPoint 1 7; mkPoint 2 5; mkPoint 3 3])%nat /\
  Forall (on_poly [9; -2]) [mkPoint 1 7; mkPoint 2 5; mkPoint 3 3] /\
  TestCase.processTestCase (TestCase.mkInput 3 2
    (<["1" := TestCase.mkShare 10 "7"]> (<["2" := TestCase.mkShare 2 "101"]>
      (<["3" := TestCase.mkShare 16 "3"]> ∅)))) = OK 9.
Proof.
  assert (Hdec : TestCase.decodeRoots 3
    (<["1" := TestCase.mkShare 10 "7"]> (<["2" := TestCase.mkShare 2 "101"]>
      (<["3" := TestCase.mkShare 16 "3"]> ∅)))
    = OK [mkPoint 1 7; mkPoint 2 5; mkPoint 3 3]) by (vm_compute; reflexivity).
  assert (Hline : Forall (on_poly [9; -2]) [mkPoint 1 7; mkPoint 2 5; mkPoint 3 3])
    by (repeat constructor).
  split; [reflexivity|]. split; [exact Hdec|]. split; [cbn; lia|]. split; [exact Hline|].
  apply (processTestCase_threshold_two _ [mkPoint 1 7; mkPoint 2 5; mkPoint 3 3] 9 (-2));
    [reflexivity | exact Hdec | cbn; lia | exact Hline].
Defined.

(** X18. Only the roots named "1" to "n" are read: two inputs with the
    same [n] and [k] whose roots agree under these names give the same
    result, whatever else they hold. *)
Theorem processTestCase_reads_1_to_n
    (n k : Z) (rootData1 rootData2 : gmap string TestCase.Share) :
  (forall i : nat, (1 <= i <= Z.to_nat n)%nat ->
                   rootData1 !! pretty i = rootData2 !! pretty i) ->
  TestCase.processTestCase (TestCase.mkInput n k rootData1)
  = TestCase.processTestCase (TestCase.mkInput n k rootData2).
Proof.
  intros Hagree. unfold TestCase.processTestCase, TestCase.decodeRoots.
  cbn [TestCase.n TestCase.k TestCase.rootData].
  rewrite (foldM_ext_in (TestCase.decodeStep rootData1) (TestCase.decodeStep rootData2));
    [reflexivity|].
  intros acc i Hi%in_seq. unfold TestCase.decodeStep.
  rewrite Hagree by lia. reflexivity.
Qed.

Lemma processTestCase_reads_1_to_n_witness :
  (forall i : nat, (1 <= i <= Z.to_nat 2)%nat ->
     (<["1" := TestCase.mkShare 10 "7"]> (<["2" := TestCase.mkShare 10 "5"]>
        (<["3" := TestCase.mkShare 10 "zz"]> ∅)) : gmap string TestCase.Share)
       !! pretty i
     = (<["1" := TestCase.mkShare 10 "7"]> (<["2" := TestCase.mkShare 10 "5"]> ∅)
        : gmap string TestCase.Share) !! pretty i) /\
  TestCase.processTestCase (TestCase.mkInput 2 2
    (<["1" := TestCase.mkShare 10 "7"]> (<["2" := TestCase.mkShare 10 "5"]>
       (<["3" := TestCase.mkShare 10 "zz"]> ∅))))
  = TestCase.processTestCase (TestCase.mkInput 2 2
    (<["1" := TestCase.mkShare 10 "7"]> (<["2" := TestCase.mkShare 10 "5"]> ∅))).
Proof.
  assert (Hagree : forall i : nat, (1 <= i <= Z.to_nat 2)%nat ->
     (<["1" := TestCase.mkShare 10 "7"]> (<["2" := TestCase.mkShare 10 "5"]>
        (<["3" := TestCase.mkShare 10 "zz"]> ∅)) : gmap string TestCase.Share)
       !! pretty i
     = (<["1" := TestCase.mkShare 10 "7"]> (<["2" := TestCase.mkShare 10 "5"]> ∅)
        : gmap string TestCase.Share) !! pretty i).
  { intros i Hi. assert (Hcases : i = 1%nat \/ i = 2%nat) by lia.
    destruct Hcases as [-> | ->]; vm_compute; reflexivity. }
  split; [exact Hagree|].
  exact (processTestCase_reads_1_to_n 2 2 _ _ Hagree).
Defined.

(* ===================================================================== *)
(** ** The order of the points *)
(* ===================================================================== *)

Section OrderOfPoints.

Lemma performLagrangeInterpolation_repeated (dataPoints : list Point) :
  ~ NoDup (map x dataPoints) ->
  performLagrangeInterpolation dataPoints = Throw RangeError.
Proof.
  intros Hnd. rewrite performLagrangeInterpolation_selections.
  apply selections_loop_throws; [|apply repeated_abscissa_selection, Hnd].
  destruct dataPoints; [|cbn [length]; lia].
  exfalso. apply Hnd. constructor.
Qed.

(** The result of the interpolation, an error included, does not depend
    on the order of the points. *)
Lemma performLagrangeInterpolation_perm (l l' : list Point) :
  l ≡ₚ l' -> performLagrangeInterpolation l = performLagrangeInterpolation l'.
Proof.
  intros Hp. destruct (decide (NoDup (map x l))) as [Hnd|Hnd].
  - rewrite (performLagrangeInterpolation_closed l Hnd).
    rewrite (performLagrangeInterpolation_closed l')
      by (rewrite <- (Permutation_map x Hp); exact Hnd).
    f_equal. apply coefficientsClosed_perm, Hp.
  - rewrite (performLagrangeInterpolation_repeated l Hnd).
    rewrite (performLagrangeInterpolation_repeated l'); [reflexivity|].
    rewrite <- (Permutation_map x Hp). exact Hnd.
Qed.

Lemma candidate_perm (l l' : list Point) : l ≡ₚ l' -> candidate l = candidate l'.
Proof.
  intros Hp. unfold candidate.
  rewrite (performLagrangeInterpolation_perm l l' Hp). reflexivity.
Qed.

Lemma PermutationA_map_cons (a : Point) (L L' : list (list Point)) :
  PermutationA (@Permutation Point) L L' ->
  PermutationA (@Permutation Point) (map (cons a) L) (map (cons a) L').
Proof.
  induction 1 as [|c c' L L' Hc _ IH | c c' L | L1 L2 L3 _ IH1 _ IH2]; cbn [map].
  - constructor.
  - apply permA_skip; [apply perm_skip, Hc | exact IH].
  - apply permA_swap.
  - exact (permA_trans IH1 IH2).
Qed.

Lemma map_cons_swap (a b : Point) (L : list (list Point)) :
  PermutationA (@Permutation Point)
    (map (cons b) (map (cons a) L)) (map (cons a) (map (cons b) L)).
Proof.
  induction L as [|c L IH]; cbn [map]; [constructor|].
  apply permA_skip; [apply perm_swap | exact IH].
Qed.

Lemma sublists_zero (l : list Point) : sublists 0 l = [[]].
Proof. destruct l; reflexivity. Qed.

(** The combinations of a permuted list are the combinations of the
    list, up to their order and to the order inside each. *)
Lemma sublists_perm (l l' : list Point) :
  l ≡ₚ l' ->
  forall m, PermutationA (@Permutation Point) (sublists m l) (sublists m l').
Proof.
  induction 1 as [|a l1 l2 Hp IH | a b l | l1 l2 l3 Hp1 IH1 Hp2 IH2]; intros m.
  - reflexivity.
  - destruct m as [|m]; cbn [sublists]; [reflexivity|].
    apply PermutationA_app; [typeclasses eauto | |apply IH].
    apply PermutationA_map_cons, IH.
  - destruct m as [|[|m]]; cbn [sublists]; [reflexivity | |].
    + rewrite !sublists_zero. cbn [map app]. apply permA_swap.
    + rewrite !map_app, <- !app_assoc.
      apply PermutationA_app; [typeclasses eauto | apply map_cons_swap |].
      rewrite !app_assoc.
      apply PermutationA_app; [typeclasses eauto | | reflexivity].
      apply PermutationA_app_comm. typeclasses eauto.
  - etransitivity; [apply IH1 | apply IH2].
Qed.

Lemma candidates_permA (L L' : list (list Point)) :
  PermutationA (@Permutation Point) L L' -> candidates L ≡ₚ candidates L'.
Proof.
  induction 1 as [|c c' L L' Hc _ IH | c c' L | L1 L2 L3 _ IH1 _ IH2].
  - reflexivity.
  - cbn [candidates]. rewrite (candidate_perm c c' Hc).
    destruct (candidate c'); [apply perm_skip, IH | exact IH].
  - cbn [candidates].
    destruct (candidate c), (candidate c'); try reflexivity. apply perm_swap.
  - etransitivity; [exact IH1 | exact IH2].
Qed.

Lemma occurrences_perm (c : Z) (cs cs' : list Z) :
  cs ≡ₚ cs' -> occurrences c cs = occurrences c cs'.
Proof.
  induction 1 as [|a l1 l2 Hp IH | a b l | l1 l2 l3 Hp1 IH1 Hp2 IH2];
    cbn [occurrences]; lia.
Qed.

Lemma backtrack_perm (l l' : list Point) (k : Z) :
  l ≡ₚ l' ->
  candidates (backtrack k l []) ≡ₚ candidates (backtrack k l' []) /\
  length (backtrack k l []) = length (backtrack k l' []).
Proof.
  intros Hp. destruct (Z_lt_le_dec k 0) as [Hneg|Hpos].
  - rewrite !backtrack_over by (cbn [length]; lia). split; reflexivity.
  - rewrite !backtrack_sublists_pos by lia. split.
    + apply candidates_permA, sublists_perm, Hp.
    + rewrite !sublists_length, (Permutation_length Hp). reflexivity.
Qed.

Lemma findSecret_largest (allRoots : list Point) (k : Z) (r : RecoveryResult) :
  findSecretWithMinimumRoots allRoots k = OK r ->
  In (secret r) (candidates (backtrack k allRoots [])) /\
  forall c, In c (candidates (backtrack k allRoots [])) ->
    (occurrences c (candidates (backtrack k allRoots []))
     <= occurrences (secret r) (candidates (backtrack k allRoots [])))%nat.
Proof.
  intros Hr. apply findSecret_OK in Hr. cbn zeta in Hr.
  destruct Hr as (_ & _ & k1 & k2 & Hkeys & Hk1 & Hk2).
  split.
  - apply first_seen_elem. rewrite Hkeys. apply in_or_app. right. left. reflexivity.
  - intros c Hc%first_seen_elem. rewrite Hkeys in Hc.
    apply in_app_or in Hc as [Hc|[<-|Hc]].
    + apply Nat.lt_le_incl, Hk1, Hc.
    + reflexivity.
    + apply Hk2, Hc.
Qed.

End OrderOfPoints.

(** X19. Giving the points in another order changes neither whether the
    recovery succeeds, nor the returned frequency, nor
    [totalCombinations]; the returned secret is, in both orders, a
    candidate with the largest count, and can differ only between
    candidates that share this count. *)
Theorem recovery_order_of_points (allRoots allRoots' : list Point) (k : Z) :
  allRoots ≡ₚ allRoots' ->
  (forall r, findSecretWithMinimumRoots allRoots k = OK r ->
     exists r' combs,
       findSecretWithMinimumRoots allRoots' k = OK r' /\
       frequency r' = frequency r /\
       totalCombinations r' = totalCombinations r /\
       generateCombinations allRoots k = OK combs /\
       occurrences (secret r') (candidates combs)
       = occurrences (secret r) (candidates combs)) /\
  (forall e, findSecretWithMinimumRoots allRoots k = Throw e ->
             findSecretWithMinimumRoots allRoots' k = Throw e).
Proof.
  intros Hp. destruct (backtrack_perm allRoots allRoots' k Hp) as [Hcs Hlen].
  split.
  - intros r Hr.
    assert (HOK : is_OK (findSecretWithMinimumRoots allRoots' k) = true).
    { apply findSecret_is_OK. intros Hnil. rewrite Hnil in Hcs.
      apply Permutation_sym, Permutation_nil in Hcs.
      assert (His : is_OK (findSecretWithMinimumRoots allRoots k) = true)
        by (rewrite Hr; reflexivity).
      apply findSecret_is_OK in His. contradiction. }
    destruct (findSecretWithMinimumRoots allRoots' k) as [r'|e] eqn:Hr'; [|discriminate].
    exists r', (backtrack k allRoots []).
    destruct (findSecret_largest _ _ _ Hr) as [Hin Hmax].
    destruct (findSecret_largest _ _ _ Hr') as [Hin' Hmax'].
    apply findSecret_OK in Hr as (Htot & Hfreq & _).
    apply findSecret_OK in Hr' as (Htot' & Hfreq' & _).
    assert (Heq : occurrences (secret r') (candidates (backtrack k allRoots []))
                  = occurrences (secret r) (candidates (backtrack k allRoots []))).
    { apply Nat.le_antisymm.
      - apply Hmax. apply (Permutation_in _ (Permutation_sym Hcs)), Hin'.
      - rewrite !(occurrences_perm _ _ _ Hcs). apply Hmax'.
        apply (Permutation_in _ Hcs), Hin. }
    split; [reflexivity|]. split; [|split; [|split; [reflexivity | exact Heq]]].
    + rewrite Hfreq, Hfreq'. f_equal.
      rewrite <- (occurrences_perm _ _ _ Hcs). exact Heq.
    + rewrite Htot, Htot'. symmetry. exact Hlen.
  - intros e He.
    rewrite findSecret_unfold in He |- *. cbn zeta in He |- *.
    destruct (entries (candidates (backtrack k allRoots []))) eqn:Hent; [|discriminate].
    apply entries_nil in Hent. rewrite Hent in Hcs. apply Permutation_nil in Hcs.
    rewrite Hcs. exact He.
Qed.

Lemma recovery_order_of_points_witness :
  [mkPoint 1 5; mkPoint 2 7] ≡ₚ [mkPoint 2 7; mkPoint 1 5] /\
  findSecretWithMinimumRoots [mkPoint 1 5; mkPoint 2 7] 1
    = OK (mkResult 5 (Some 1%nat) 2) /\
  findSecretWithMinimumRoots [mkPoint 2 7; mkPoint 1 5] 1
    = OK (mkResult 7 (Some 1%nat) 2) /\
  exists r' combs,
    findSecretWithMinimumRoots [mkPoint 2 7; mkPoint 1 5] 1 = OK r' /\
    frequency r' = Some 1%nat /\
    totalCombinations r' = 2%nat /\
    generateCombinations [mkPoint 1 5; mkPoint 2 7] 1 = OK combs /\
    occurrences (secret r') (candidates combs) = occurrences 5 (candidates combs).
Proof.
  assert (Hp : [mkPoint 1 5; mkPoint 2 7] ≡ₚ [mkPoint 2 7; mkPoint 1 5])
    by apply perm_swap.
  split; [exact Hp|]. split; [reflexivity|]. split; [reflexivity|].
  destruct (recovery_order_of_points _ _ 1 Hp) as [HOK _].
  exact (HOK (mkResult 5 (Some 1%nat) 2) eq_refl).
Defined.
